(** * django-positions: the [PositionField] of [django_positions_2/fields.py]

    A shallow embedding of the position field and of the part of the
    Django ORM it talks to, followed by the properties of the ordering it
    maintains.

    - Python integers are unbounded: positions and primary keys are [Z].
    - A table is the list of its rows, in the order the database returns
      them; a queryset is the predicate its chain of [filter] / [exclude]
      calls has built so far and is evaluated against the table when
      [count], [[0]], [get] or [update] runs.
    - The code raises and catches exceptions and mutates the table, the
      field object and the model instance: it is written in a state and
      exception monad [M] whose state survives a raise, so that an
      [except] clause continues from the state the [try] block left.
    - The database may fail: the state carries a script of faults, one
      entry consumed by every query. *)

From Stdlib Require Import ZArith List Bool Lia Permutation.
Import ListNotations.
Local Open Scope Z_scope.

(** ** Rows, instances and the field object *)

(** A column value: [None] is SQL NULL / Python [None]. *)
Definition value := option Z.

Definition value_eqb (a b : value) : bool :=
  match a, b with
  | Some x, Some y => x =? y
  | None, None => true
  | _, _ => false
  end.

(** A persisted row: its primary key, the values of the model's other
    columns (by column number), the position column and the values of the
    model's [auto_now] columns. *)
Record row := Row {
  r_pk : Z;
  r_fields : list value;
  r_position : Z;
  r_auto_now : list Z
}.

(** A model instance in memory.  [cache] is the pair stored under
    [get_cache_name()]: [(current, updated)].  [pk] is [None] until the
    row has been inserted. *)
Record instance := Instance {
  pk : option Z;
  fields : list value;
  cache : option Z * option Z;
  next_sibling_pk : option Z
}.

(** The field object [self]: [collection] is [None] or the tuple of the
    names (here: column numbers) of the fields that partition the table;
    [auto_now_fields] is the list of the model's [auto_now] fields, kept
    as their number; [default] is the field's default, [-1] unless the declaration
    overrides it.  The mutable attribute [_collection_changed] lives in
    the state, see [world]. *)
Record PositionField := Field {
  collection : option (list nat);
  auto_now_fields : nat;
  default : Z
}.

Definition getattr (fs : list value) (field_name : nat) : value :=
  nth field_name fs None.

Definition set_cache (i : instance) (c : option Z * option Z) : instance :=
  Instance (pk i) (fields i) c (next_sibling_pk i).

Definition set_next_sibling_pk (i : instance) (p : option Z) : instance :=
  Instance (pk i) (fields i) (cache i) p.

Definition set_pk (i : instance) (p : option Z) : instance :=
  Instance p (fields i) (cache i) (next_sibling_pk i).

Definition set_fields (i : instance) (fs : list value) : instance :=
  Instance (pk i) fs (cache i) (next_sibling_pk i).

(** [__set__], the branch taken by the first assignment to a fresh
    instance (no cache yet, the [except AttributeError] branch): this is
    what the model's constructor and the ORM's row loader run. *)
Definition init_position (self : PositionField) (v : option Z) : option Z * option Z :=
  let v := match v with None => default self | Some x => x end in
  (Some v, None).

(** [__set__] on an instance that already has a cache. *)
Definition set_position (self : PositionField) (i : instance) (v : option Z) : instance :=
  let v := match v with None => default self | Some x => x end in
  set_cache i (fst (cache i), Some v).

(** [__get__]. *)
Definition get_position (i : instance) : option Z :=
  match cache i with
  | (current, None) => current
  | (_, Some updated) => Some updated
  end.

(** The instance the ORM builds from a row. *)
Definition instance_of_row (r : row) : instance :=
  Instance (Some (r_pk r)) (r_fields r) (Some (r_position r), None) None.

(** ** Exceptions, state and the monad *)

Inductive exn :=
| ObjectDoesNotExist
| IndexError
| TypeError
| ValueError
| DatabaseError (code : Z).

Inductive query := QGet | QCount | QFirst | QUpdate | QInsert | QWrite | QDelete.

(** The state: the table, the clock read by [now()], the faults the
    database is going to raise (one entry per query, [None] for a query
    that goes through; no entry left means no fault), the log of the
    queries sent so far, each with the exception it raised if any (latest
    first), and [self._collection_changed]. *)
Record world := World {
  rows : list row;
  clock : Z;
  faults : list (option exn);
  queries : list (query * option exn);
  collection_changed : option bool
}.

Inductive result (A : Type) :=
| Ok (a : A)
| Raise (e : exn).
Arguments Ok {A} a.
Arguments Raise {A} e.

Definition M (A : Type) : Type := world -> result A * world.

Definition ret {A} (a : A) : M A := fun w => (Ok a, w).

Definition bind {A B} (m : M A) (f : A -> M B) : M B :=
  fun w => match m w with
           | (Ok a, w') => f a w'
           | (Raise e, w') => (Raise e, w')
           end.

Definition raise {A} (e : exn) : M A := fun w => (Raise e, w).

(** [try: m except <classes>: h]. *)
Definition try_except {A} (m : M A) (catches : exn -> bool) (h : M A) : M A :=
  fun w => match m w with
           | (Raise e, w') => if catches e then h w' else (Raise e, w')
           | r => r
           end.

Notation "x <- m ;; k" := (bind m (fun x => k))
  (at level 61, m at next level, right associativity).
Notation "' p <- m ;; k" := (bind m (fun x => match x with p => k end))
  (at level 61, p pattern, m at next level, right associativity).
Notation "m ;;; k" := (bind m (fun _ => k))
  (at level 61, right associativity).

Definition is_ObjectDoesNotExist (e : exn) : bool :=
  match e with ObjectDoesNotExist => true | _ => false end.

(** [except Exception]: every exception of the model is an [Exception]. *)
Definition is_Exception (e : exn) : bool := true.

Definition get_rows : M (list row) := fun w => (Ok (rows w), w).

Definition put_rows (rs : list row) : M unit :=
  fun w => (Ok tt, World rs (clock w) (faults w) (queries w) (collection_changed w)).

Definition read_collection_changed : M (option bool) :=
  fun w => (Ok (collection_changed w), w).

Definition write_collection_changed (b : option bool) : M unit :=
  fun w => (Ok tt, World (rows w) (clock w) (faults w) (queries w) b).

(** [django.utils.timezone.now()]: reads the clock, and time passes. *)
Definition now : M Z :=
  fun w => (Ok (clock w),
            World (rows w) (clock w + 1) (faults w) (queries w) (collection_changed w)).

(** Every query is logged and may fail as the script of faults says. *)
Definition send (q : query) : M unit :=
  fun w =>
    match faults w with
    | Some e :: fs =>
        (Raise e, World (rows w) (clock w) fs ((q, Some e) :: queries w) (collection_changed w))
    | None :: fs =>
        (Ok tt, World (rows w) (clock w) fs ((q, None) :: queries w) (collection_changed w))
    | [] =>
        (Ok tt, World (rows w) (clock w) [] ((q, None) :: queries w) (collection_changed w))
    end.

(** ** Querysets *)

Definition queryset := row -> bool.

Definition q_filter (qs : queryset) (p : row -> bool) : queryset :=
  fun r => qs r && p r.

(** [exclude(pk=p)]; no row has a NULL primary key. *)
Definition q_exclude_pk (qs : queryset) (p : option Z) : queryset :=
  fun r => qs r && negb (match p with Some x => r_pk r =? x | None => false end).

(** A lookup [position__gt=v] and the like: Django refuses [None] as the
    value of a comparison lookup. *)
Definition q_lookup (qs : queryset) (cmp : Z -> Z -> bool) (v : option Z) : M queryset :=
  match v with
  | Some x => ret (q_filter qs (fun r => cmp (r_position r) x))
  | None => raise ValueError
  end.

(** [qs.count()]. *)
Definition q_count (qs : queryset) : M Z :=
  send QCount ;;;
  rs <- get_rows ;;
  ret (Z.of_nat (length (filter qs rs))).

(** [qs[0]]. *)
Definition q_first (qs : queryset) : M row :=
  send QFirst ;;;
  rs <- get_rows ;;
  match filter qs rs with
  | r :: _ => ret r
  | [] => raise IndexError
  end.

(** [_default_manager.get(pk=p)]; primary keys are unique, so at most
    one row matches. *)
Definition q_get (p : option Z) : M row :=
  send QGet ;;;
  rs <- get_rows ;;
  match p with
  | None => raise ObjectDoesNotExist
  | Some x =>
      match find (fun r => r_pk r =? x) rs with
      | Some r => ret r
      | None => raise ObjectDoesNotExist
      end
  end.

(** The [updates] dictionary of a bulk update: [F(name) + delta] for the
    position and [right_now] for every [auto_now] column. *)
Definition apply_updates (delta : Z) (right_now : option Z) (r : row) : row :=
  Row (r_pk r) (r_fields r) (r_position r + delta)
      (match right_now with
       | Some t => map (fun _ => t) (r_auto_now r)
       | None => r_auto_now r
       end).

Definition shift (qs : queryset) (delta : Z) (right_now : option Z) (rs : list row) : list row :=
  map (fun r => if qs r then apply_updates delta right_now r else r) rs.

(** [qs.update] with the [updates] dictionary: one UPDATE statement. *)
Definition q_update (qs : queryset) (delta : Z) (right_now : option Z) : M unit :=
  send QUpdate ;;;
  rs <- get_rows ;;
  put_rows (shift qs delta right_now rs).

(** [if self.auto_now_fields: right_now = now()]. *)
Definition stamp (self : PositionField) : M (option Z) :=
  match auto_now_fields self with
  | O => ret None
  | S _ => t <- now ;; ret (Some t)
  end.

(** ** Declaring the field *)

(** The [collection] argument of [__init__]: [None], one name, or a
    tuple of names. *)
Inductive collection_argument :=
| NoCollection
| OneName (name : nat)
| Names (names : list nat).

(** What [__init__] leaves in the field object, before the field is
    attached to a model. *)
Record declared := Declared {
  d_collection : option (list nat);
  d_default : Z
}.

(** [__init__]; [unique] is the value of the keyword [unique] when
    [kwargs] has it.  A single name becomes a tuple of one. *)
Definition __init__ (default : Z) (collection : collection_argument)
    (unique : option bool) : result declared :=
  match unique with
  | Some _ => Raise TypeError
  | None =>
      Ok (Declared
            match collection with
            | NoCollection => None
            | OneName name => Some [name]
            | Names names => Some names
            end
            default)
  end.

(** [contribute_to_class]: [name] is the name of the field,
    [unique_together] the model's constraints and [auto_now] the
    [auto_now] attribute of each field of the model; the signals are
    connected by the host, see [save_insert], [save_update], [delete]. *)
Definition contribute_to_class (self : declared) (name : nat)
    (unique_together : list (list nat)) (auto_now : list bool) : result PositionField :=
  if existsb (fun constraint => existsb (Nat.eqb name) constraint) unique_together
  then Raise TypeError
  else Ok (Field (d_collection self) (length (filter (fun a => a) auto_now))
                 (d_default self)).

(** ** The methods of [PositionField] *)

(** [get_collection]: one filter per collection field, on the value the
    instance holds for it ([field__isnull=True] when that value is
    [None]).  [parent_link] only selects the table and is left out. *)
Definition get_collection (self : PositionField) (i : instance) : queryset :=
  fun r =>
    match collection self with
    | None => true
    | Some names =>
        forallb (fun field_name =>
                   value_eqb (getattr (r_fields r) field_name)
                             (getattr (fields i) field_name)) names
    end.

(** [get_next_sibling]. *)
Definition get_next_sibling (self : PositionField) (i : instance) : M (option row) :=
  try_except
    (qs <- q_lookup (get_collection self i) Z.gtb (fst (cache i)) ;;
     r <- q_first qs ;;
     ret (Some r))
    is_Exception
    (ret None).

(** [remove_from_collection]. *)
Definition remove_from_collection (self : PositionField) (i : instance) : M unit :=
  let queryset := get_collection self i in
  let current := fst (cache i) in
  right_now <- stamp self ;;
  qs <- q_lookup queryset Z.gtb current ;;
  q_update qs (-1) right_now.

(** Lines 100 to 115 of [pre_save]: the requested value made an index. *)
Definition resolve_position (max_position updated : Z) : Z :=
  let min_position := 0 in
  if (max_position >=? updated) && (updated >=? min_position) then updated
  else if updated >? max_position then max_position
  else if Z.abs updated <=? max_position + 1 then max_position + 1 + updated
  else min_position.

(** [for field_name in self.collection: ... if previous != current:
    collection_changed = True; break]. *)
Definition fields_differ (names : list nat) (previous current : list value) : bool :=
  existsb (fun field_name =>
             negb (value_eqb (getattr previous field_name)
                             (getattr current field_name))) names.

(** [pre_save]: returns the position to store and the instance with its
    cache as the method leaves it. *)
Definition pre_save (self : PositionField) (model_instance : instance) (add : bool)
  : M (Z * instance) :=
  ' (previous_instance, collection_changed, add) <-
    match negb add, collection self with
    | true, Some names =>
        try_except
          (previous_instance <- q_get (pk model_instance) ;;
           ret (Some (instance_of_row previous_instance),
                fields_differ names (r_fields previous_instance) (fields model_instance),
                add))
          is_ObjectDoesNotExist
          (ret (None, false, true))
    | _, _ => ret (None, false, add)
    end ;;
  let previous_instance := if collection_changed then previous_instance else None in
  write_collection_changed (Some collection_changed) ;;;
  match collection_changed, previous_instance with
  | true, Some previous => remove_from_collection self previous
  | _, _ => ret tt
  end ;;;
  let '(current, updated) := cache model_instance in
  let current := if collection_changed then None else current in
  let '(current, updated) :=
    if add then (None, match updated with None => current | Some _ => updated end)
    else (current, updated) in
  match current, updated with
  | Some current, None => ret (current, model_instance)
  | _, _ =>
      let updated := match updated with None => -1 | Some u => u end in
      collection_count <- q_count (get_collection self model_instance) ;;
      let max_position :=
        match current with
        | None => collection_count
        | Some _ => collection_count - 1
        end in
      if add && ((updated =? -1) || (updated >=? max_position)) then
        ret (max_position, set_cache model_instance (Some max_position, None))
      else
        let position := resolve_position max_position updated in
        ret (position, set_cache model_instance (current, Some position))
  end.

(** [prepare_delete]; a model instance is truthy. *)
Definition prepare_delete (self : PositionField) (i : instance) : M instance :=
  next_sibling <- get_next_sibling self i ;;
  match next_sibling with
  | Some sibling => ret (set_next_sibling_pk i (Some (r_pk sibling)))
  | None => ret (set_next_sibling_pk i None)
  end.

(** [if next_sibling_pk:] on an integer key or [None]. *)
Definition truthy_pk (p : option Z) : bool :=
  match p with
  | Some x => negb (x =? 0)
  | None => false
  end.

(** [update_on_delete]. *)
Definition update_on_delete (self : PositionField) (i : instance) : M instance :=
  let next_sibling_pk := next_sibling_pk i in
  (if truthy_pk next_sibling_pk then
     next_sibling <- try_except (r <- q_get next_sibling_pk ;; ret (Some r))
                                is_Exception (ret None) ;;
     match next_sibling with
     | Some sibling =>
         let queryset := get_collection self (instance_of_row sibling) in
         let current := fst (cache i) in
         right_now <- stamp self ;;
         qs <- q_lookup queryset Z.gtb current ;;
         q_update qs (-1) right_now
     | None => ret tt
     end
   else ret tt) ;;;
  ret (set_next_sibling_pk i None).

Definition truthy (b : option bool) : bool :=
  match b with Some true => true | _ => false end.

Definition is_None {A} (o : option A) : bool :=
  match o with None => true | Some _ => false end.

(** [update_on_save]. *)
Definition update_on_save (self : PositionField) (i : instance) (created : bool)
  : M instance :=
  collection_changed <- read_collection_changed ;;
  write_collection_changed None ;;;
  let '(current, updated) := cache i in
  if is_None updated && negb (truthy collection_changed) then ret i
  else
    let queryset := q_exclude_pk (get_collection self i) (pk i) in
    right_now <- stamp self ;;
    let updated := if is_None updated && created then Some (-1) else updated in
    (if created || truthy collection_changed then
       qs <- q_lookup queryset Z.geb updated ;;
       q_update qs 1 right_now
     else
       match updated, current with
       | Some u, Some c =>
           if u >? c then
             q_update (q_filter queryset
                         (fun r => (r_position r >? c) && (r_position r <=? u)))
                      (-1) right_now
           else
             q_update (q_filter queryset
                         (fun r => (r_position r <? c) && (r_position r >=? u)))
                      1 right_now
       | _, _ => raise TypeError
       end) ;;;
    ret (set_cache i (updated, None)).

(** ** The host: saving and deleting a model instance *)

(** The host is Django's [Model.save] and [Model.delete], which call the
    field and send its signals; it is not part of this repository.  Its
    order is the one section 2 of the specification gives: resolve
    ([pre_save]), write the record, reconcile ([update_on_save] on
    [post_save]); for a deletion, capture the sibling ([prepare_delete]
    on [pre_delete]), remove the record, close the gap
    ([update_on_delete] on [post_delete]).  The host stamps the
    [auto_now] columns of the record it writes. *)

(** The key an auto-incremented column gives to the next row. *)
Definition fresh_pk (rs : list row) : Z :=
  1 + fold_right Z.max 0 (map r_pk rs).

Definition stamped (right_now : option Z) (n : nat) (old : list Z) : list Z :=
  match right_now with
  | Some t => repeat t n
  | None => old
  end.

(** INSERT; the database assigns the next key of the sequence. *)
Definition db_insert (self : PositionField) (fs : list value) (position : Z)
    (right_now : option Z) : M Z :=
  send QInsert ;;;
  rs <- get_rows ;;
  let p := fresh_pk rs in
  put_rows (rs ++ [Row p fs position (stamped right_now (auto_now_fields self) [])]) ;;;
  ret p.

Definition has_pk (p : Z) (r : row) : bool := r_pk r =? p.

Definition write_row (self : PositionField) (p : Z) (fs : list value)
    (position : Z) (right_now : option Z) (rs : list row) : list row :=
  map (fun r => if has_pk p r
                then Row p fs position
                         (stamped right_now (auto_now_fields self) (r_auto_now r))
                else r) rs.

(** UPDATE of the instance's own row; fails when no row has its key. *)
Definition db_write (self : PositionField) (p : option Z) (fs : list value)
    (position : Z) (right_now : option Z) : M unit :=
  send QWrite ;;;
  rs <- get_rows ;;
  match p with
  | None => raise (DatabaseError 0)
  | Some p =>
      if existsb (has_pk p) rs then put_rows (write_row self p fs position right_now rs)
      else raise (DatabaseError 0)
  end.

Definition without (p : Z) (rs : list row) : list row :=
  filter (fun r => negb (has_pk p r)) rs.

(** DELETE of the instance's own row. *)
Definition db_delete (p : option Z) : M unit :=
  send QDelete ;;;
  rs <- get_rows ;;
  match p with
  | None => ret tt
  | Some p => put_rows (without p rs)
  end.

(** [Model.save] on a new instance. *)
Definition save_insert (self : PositionField) (i : instance) : M instance :=
  ' (position, i) <- pre_save self i true ;;
  right_now <- stamp self ;;
  p <- db_insert self (fields i) position right_now ;;
  update_on_save self (set_pk i (Some p)) true.

(** [Model.save] on an instance that was loaded from the table. *)
Definition save_update (self : PositionField) (i : instance) : M instance :=
  ' (position, i) <- pre_save self i false ;;
  right_now <- stamp self ;;
  db_write self (pk i) (fields i) position right_now ;;;
  update_on_save self i false.

(** [Model.delete]. *)
Definition delete (self : PositionField) (i : instance) : M instance :=
  i <- prepare_delete self i ;;
  db_delete (pk i) ;;;
  update_on_delete self i.

(** The three operations a client performs, each on an instance it has
    just built or fetched: [Model(fields, position=v).save()];
    [o = get(pk=p); o.fields = fs; o.position = v; o.save()] (the
    assignment to the position is optional); [get(pk=p).delete()]. *)
Definition create (self : PositionField) (fs : list value) (v : option Z) : M instance :=
  save_insert self (Instance None fs (init_position self v) None).

Definition update (self : PositionField) (p : Z) (fs : list value)
    (v : option (option Z)) : M instance :=
  r <- q_get (Some p) ;;
  let o := set_fields (instance_of_row r) fs in
  let o := match v with
           | Some v => set_position self o v
           | None => o
           end in
  save_update self o.

Definition destroy (self : PositionField) (p : Z) : M instance :=
  r <- q_get (Some p) ;;
  delete self (instance_of_row r).

Inductive operation :=
| Create (fs : list value) (v : option Z)
| Update (p : Z) (fs : list value) (v : option (option Z))
| Delete (p : Z).

Definition perform (self : PositionField) (o : operation) : M instance :=
  match o with
  | Create fs v => create self fs v
  | Update p fs v => update self p fs v
  | Delete p => destroy self p
  end.

(** A sequence of operations; one that raises stops the sequence. *)
Fixpoint perform_all (self : PositionField) (os : list operation) : M unit :=
  match os with
  | [] => ret tt
  | o :: os => perform self o ;;; perform_all self os
  end.

(** ** Collections and the invariant *)

(** The collection key of a row: the values of the collection fields. *)
Definition key_of (self : PositionField) (fs : list value) : list value :=
  match collection self with
  | None => []
  | Some names => map (getattr fs) names
  end.

Fixpoint key_eqb (a b : list value) : bool :=
  match a, b with
  | [], [] => true
  | x :: a, y :: b => value_eqb x y && key_eqb a b
  | _, _ => false
  end.

Definition in_collection (self : PositionField) (k : list value) : queryset :=
  fun r => key_eqb (key_of self (r_fields r)) k.

Definition members (self : PositionField) (k : list value) (rs : list row) : list row :=
  filter (in_collection self k) rs.

Definition positions (rs : list row) : list Z := map r_position rs.

Definition upto (n : nat) : list Z := map Z.of_nat (seq 0 n).

(** The positions of the members of collection [k] are [0 .. N-1], each
    once. *)
Definition dense (self : PositionField) (k : list value) (rs : list row) : Prop :=
  Permutation (positions (members self k rs))
              (upto (length (members self k rs))).

(** A state in which nothing has happened yet and the database is not
    going to fail. *)
Definition empty_world (rs : list row) : world := World rs 0 [] [] None.

(** [PositionField(collection='parent')], on a model without [auto_now]
    fields whose first column is [parent]. *)
Definition plain : PositionField := Field (Some [0%nat]) 0 (-1).

(** A collection of five and a collection of one. *)
Definition five : list row :=
  [Row 1 [Some 7] 0 []; Row 2 [Some 7] 1 []; Row 3 [Some 7] 2 [];
   Row 4 [Some 7] 3 []; Row 5 [Some 7] 4 []; Row 6 [Some 8] 0 []].

(** ** What the properties are stated with *)

(** No position twice, and every position below the number of positions. *)
Definition contiguous (l : list Z) : Prop :=
  NoDup l /\ forall x, In x l -> 0 <= x < Z.of_nat (length l).

(** What the three bulk updates do to a position. *)
Definition opened (u x : Z) : Z := if x >=? u then x + 1 else x.

Definition closed (c x : Z) : Z := if x >? c then x - 1 else x.

Definition moved (c u x : Z) : Z :=
  if u >? c then (if (x >? c) && (x <=? u) then x - 1 else x)
  else (if (x <? c) && (x >=? u) then x + 1 else x).

Definition unique_keys (rs : list row) : Prop := NoDup (map r_pk rs).

Definition stamp_time (self : PositionField) (w : world) : option Z :=
  match auto_now_fields self with O => None | S _ => Some (clock w) end.

Definition stamp_world (self : PositionField) (w : world) : world :=
  World (rows w)
        (match auto_now_fields self with O => clock w | S _ => clock w + 1 end)
        (faults w) (queries w) (collection_changed w).

Definition requested (self : PositionField) (v : option Z) : Z :=
  match v with Some x => x | None => default self end.

Definition assigned (self : PositionField) (v : option (option Z)) : option Z :=
  match v with
  | Some v => Some (requested self v)
  | None => None
  end.

Definition truthy_keys (rs : list row) : Prop := ~ In 0 (map r_pk rs).

Definition ordered (self : PositionField) (rs : list row) : Prop :=
  forall k, dense self k rs.

(** The state in which an operation starts and ends. *)
Definition consistent (self : PositionField) (w : world) : Prop :=
  faults w = [] /\ unique_keys (rows w) /\ truthy_keys (rows w) /\ ordered self (rows w).

(** What a bulk update of the rows that satisfy [touched] leaves: those
    rows keep their key and fields, their position is the old one plus
    [d], and every [auto_now] column holds the time [t] if there is one;
    the other rows are as they were. *)
Definition bulk_updated (touched : row -> Prop) (d : Z) (t : option Z)
    (rs rs' : list row) : Prop :=
  Forall2 (fun r r' =>
             (touched r ->
              r_pk r' = r_pk r /\ r_fields r' = r_fields r /\
              r_position r' = r_position r + d /\
              match t with
              | Some right_now =>
                  length (r_auto_now r') = length (r_auto_now r) /\
                  forall x, In x (r_auto_now r') -> x = right_now
              | None => r_auto_now r' = r_auto_now r
              end) /\
             (~ touched r -> r' = r)) rs rs'.

Definition count_in (self : PositionField) (fs : list value) (rs : list row) : Z :=
  Z.of_nat (length (members self (key_of self fs) rs)).

Definition has_key (p : option Z) (rs : list row) : option row :=
  match p with
  | Some x => find (has_pk x) rs
  | None => None
  end.

(** The value [pre_save] resolves for an instance it treats as new: the
    pending value, else the value the instance was built with. *)
Definition requested_new (i : instance) : Z :=
  match cache i with
  | (_, Some u) => u
  | (Some c, None) => c
  | (None, None) => -1
  end.

(** The value it resolves for an instance that changes collection: the
    pending value, else [-1]. *)
Definition requested_moved (i : instance) : Z :=
  match snd (cache i) with
  | Some u => u
  | None => -1
  end.

(** The inputs on which [pre_save] repositions, each with the highest
    position the instance may take and the requested value: a new record
    and a record that comes from another collection may take the count
    of the target collection, a member with a pending value the count
    minus one. *)
Inductive repositions (self : PositionField) (i : instance) (w : world)
  : bool -> Z -> Z -> Prop :=
| new_record :
    repositions self i w true (count_in self (fields i) (rows w)) (requested_new i)
| collection_change row :
    has_key (pk i) (rows w) = Some row ->
    key_of self (fields i) <> key_of self (r_fields row) ->
    repositions self i w false (count_in self (fields i) (rows w)) (requested_moved i)
| pending_value row c x :
    has_key (pk i) (rows w) = Some row ->
    key_of self (fields i) = key_of self (r_fields row) ->
    cache i = (Some c, Some x) ->
    repositions self i w false (count_in self (fields i) (rows w) - 1) x.

(** The requests that make a move between collections an append. *)
Definition appends (self : PositionField) (v : option (option Z)) (count : Z) : Prop :=
  v = None \/ (v = Some None /\ default self = -1) \/
  (exists x, v = Some (Some x) /\ (x = -1 \/ count <= x)).

Definition count_or_update (q : query) : bool :=
  match q with QCount | QUpdate => true | _ => false end.

Definition count_read_or_update (q : query) : bool :=
  match q with QCount | QFirst | QUpdate => true | _ => false end.

(** A failure of a query of one of the [kinds] surfaces from [m]: if the
    log of a run of [m] holds such a query with the exception it raised,
    the run raised that exception, and the query is the last one the run
    sent. *)
Definition surfaces {A} (kinds : query -> exn -> bool) (m : M A) : Prop :=
  forall w res w', m w = (res, w') ->
  exists sent, queries w' = sent ++ queries w /\
    forall q e, In (q, Some e) sent -> kinds q e = true ->
                res = Raise e /\ exists before, sent = (q, Some e) :: before.

(** A failure of a query of one of the [kinds] is swallowed by [m]: the
    run returns all the same, and leaves the table as it was. *)
Definition swallowed {A} (kinds : query -> bool) (m : M A) : Prop :=
  forall w res w', m w = (res, w') ->
  exists sent, queries w' = sent ++ queries w /\
    forall q e, In (q, Some e) sent -> kinds q = true ->
                (exists a, res = Ok a) /\ rows w' = rows w.

Definition is_get (q : query) : bool :=
  match q with QGet => true | _ => false end.

(** A failure of a query of one of the [kinds] makes [m], run on the
    instance [i], go on as if there were no sibling: the failing query is
    the only one [m] sends, so no bulk update follows it; the table is
    left as it was; and [m] returns the instance with no sibling
    remembered and nothing else changed. *)
Definition taken_as_no_sibling (kinds : query -> bool) (i : instance)
    (m : M instance) : Prop :=
  forall w res w', m w = (res, w') ->
  exists sent, queries w' = sent ++ queries w /\
    forall q e, In (q, Some e) sent -> kinds q = true ->
      sent = [(q, Some e)] /\ rows w' = rows w /\
      exists i', res = Ok i' /\ next_sibling_pk i' = None /\
                 pk i' = pk i /\ fields i' = fields i /\ cache i' = cache i.

Definition is_first (q : query) : bool :=
  match q with QFirst => true | _ => false end.

(** The failures [pre_save] lets out: of the count, of the bulk update
    and, unless it is a not-found, of the fetch of the previous record. *)
Definition pre_save_lets_out (q : query) (e : exn) : bool :=
  count_or_update q || (is_get q && negb (is_ObjectDoesNotExist e)).

(** A collection of two whose second member has the key 0. *)
Definition zero_keyed : list row :=
  [Row 1 [Some 7] 0 []; Row 0 [Some 7] 1 []].

(** Two collections, of three and of two members. *)
Definition two_collections : list row :=
  [Row 1 [Some 1] 0 []; Row 2 [Some 1] 1 []; Row 3 [Some 1] 2 [];
   Row 4 [Some 2] 0 []; Row 5 [Some 2] 1 []].

(** ** What the further properties are stated with *)

(** Two rows that differ at most in their [auto_now] columns. *)
Definition same_place (r r' : row) : Prop :=
  r_pk r' = r_pk r /\ r_fields r' = r_fields r /\ r_position r' = r_position r.

(** A table [rs'] that comes from [rs] by moving rows that satisfy
    [allowed] by one position up or down, and by nothing else: no row
    added, removed or given another key or other fields. *)
Definition only_shifts (allowed : row -> Prop) (rs rs' : list row) : Prop :=
  Forall2 (fun r r' =>
             r' = r \/
             (allowed r /\ r_pk r' = r_pk r /\ r_fields r' = r_fields r /\
              (r_position r' = r_position r + 1 \/ r_position r' = r_position r - 1)))
          rs rs'.

(** The rows [pre_save] may move: those that share the collection of the
    stored row of the instance and stand above it, when the instance is
    not new and its collection fields differ from the stored ones. *)
Definition left_behind (self : PositionField) (i : instance) (add : bool)
    (rs : list row) (r : row) : Prop :=
  exists previous,
    add = false /\ has_key (pk i) rs = Some previous /\
    key_of self (r_fields previous) <> key_of self (fields i) /\
    key_of self (r_fields r) = key_of self (r_fields previous) /\
    r_position previous < r_position r.

(** The key an operation addresses, if any. *)
Definition target (o : operation) : option Z :=
  match o with
  | Create _ _ => None
  | Update p _ _ | Delete p => Some p
  end.

(** The queries [m] sends, in the order it sends them, are one of
    [patterns], in every state. *)
Definition sends {A} (m : M A) (patterns : list (list query)) : Prop :=
  forall w, exists sent,
    queries (snd (m w)) = sent ++ queries w /\
    In (rev (map fst sent)) patterns.

(** [m] calls [now()] at most once, and only for a field whose model
    has [auto_now] fields. *)
Definition reads_clock_once {A} (self : PositionField) (m : M A) : Prop :=
  forall w,
    clock (snd (m w)) = clock w \/
    (auto_now_fields self <> O /\ clock (snd (m w)) = clock w + 1).

(** * Properties *)

(** ** Lists of positions *)

Ltac zbool :=
  repeat match goal with
    | H : context [?a >? ?b] |- _ => rewrite (Z.gtb_ltb a b) in H
    | H : context [?a >=? ?b] |- _ => rewrite (Z.geb_leb a b) in H
    | |- context [?a >? ?b] => rewrite (Z.gtb_ltb a b)
    | |- context [?a >=? ?b] => rewrite (Z.geb_leb a b)
    end;
  repeat match goal with
    | H : context [?a <? ?b] |- _ => destruct (Z.ltb_spec a b); simpl in H
    | H : context [?a <=? ?b] |- _ => destruct (Z.leb_spec a b); simpl in H
    | H : context [?a =? ?b] |- _ => destruct (Z.eqb_spec a b); simpl in H
    | |- context [?a <? ?b] => destruct (Z.ltb_spec a b); simpl
    | |- context [?a <=? ?b] => destruct (Z.leb_spec a b); simpl
    | |- context [?a =? ?b] => destruct (Z.eqb_spec a b); simpl
    end.

Lemma In_upto n x : In x (upto n) <-> 0 <= x < Z.of_nat n.
Proof.
  unfold upto. rewrite in_map_iff. split.
  - intros [i [<- Hi]]. apply in_seq in Hi. lia.
  - intros H. exists (Z.to_nat x). split; [lia|]. apply in_seq. lia.
Qed.

Lemma NoDup_map_on {A B} (f : A -> B) (l : list A) :
  NoDup l ->
  (forall x y, In x l -> In y l -> f x = f y -> x = y) ->
  NoDup (map f l).
Proof.
  induction 1 as [|a l Ha Hl IH]; intros Hf; simpl; constructor.
  - rewrite in_map_iff. intros [y [Hy Hin]].
    apply Ha. rewrite (Hf a y); simpl; auto.
  - apply IH. intros; apply Hf; simpl; auto.
Qed.

Lemma NoDup_upto n : NoDup (upto n).
Proof.
  unfold upto. apply NoDup_map_on.
  - apply seq_NoDup.
  - intros a b _ _; lia.
Qed.

Lemma length_upto n : length (upto n) = n.
Proof. unfold upto. now rewrite length_map, length_seq. Qed.

Lemma contiguous_iff l : contiguous l <-> Permutation l (upto (length l)).
Proof.
  split.
  - intros [Hn Hr]. apply NoDup_Permutation_bis; auto.
    + rewrite length_upto; lia.
    + intros x Hx. apply In_upto. auto.
  - intros HP. split.
    + eapply Permutation_NoDup; [symmetry; eassumption | apply NoDup_upto].
    + intros x Hx. apply In_upto. eapply Permutation_in; eauto.
Qed.

Lemma contiguous_Permutation l l' :
  Permutation l l' -> contiguous l -> contiguous l'.
Proof.
  intros HP [Hn Hr]. split.
  - eapply Permutation_NoDup; eauto.
  - intros x Hx. rewrite <- (Permutation_length HP).
    apply Hr. eapply Permutation_in; [symmetry|]; eauto.
Qed.

Lemma contiguous_insert l u :
  contiguous l -> 0 <= u <= Z.of_nat (length l) ->
  contiguous (u :: map (opened u) l).
Proof.
  intros [Hn Hr] Hu. split.
  - constructor.
    + rewrite in_map_iff. intros [x [Hx _]]. unfold opened in Hx. zbool; lia.
    + apply NoDup_map_on; auto. intros x y _ _. unfold opened. zbool; lia.
  - cbn [length]. rewrite length_map. intros x [<-|Hx]; [lia|].
    apply in_map_iff in Hx. destruct Hx as [y [<- Hy]].
    apply Hr in Hy. unfold opened. zbool; lia.
Qed.

Lemma contiguous_remove l c :
  contiguous (c :: l) -> contiguous (map (closed c) l).
Proof.
  intros [Hn Hr]. inversion Hn as [|? ? Hc Hl]; subst.
  assert (Hne : forall x, In x l -> x <> c) by (intros x Hx ->; auto).
  pose proof (Hr c (or_introl eq_refl)) as Hcr. cbn [length] in Hr, Hcr.
  split.
  - apply NoDup_map_on; auto. intros x y Hx Hy.
    apply Hne in Hx, Hy. unfold closed. zbool; lia.
  - rewrite length_map. intros x Hx.
    apply in_map_iff in Hx. destruct Hx as [y [<- Hy]].
    pose proof (Hne _ Hy). pose proof (Hr y (or_intror Hy)).
    unfold closed. zbool; lia.
Qed.

Lemma contiguous_move l c u :
  contiguous (c :: l) -> 0 <= u < Z.of_nat (length (c :: l)) ->
  contiguous (u :: map (moved c u) l).
Proof.
  intros [Hn Hr] Hu. inversion Hn as [|? ? Hc Hl]; subst.
  assert (Hne : forall x, In x l -> x <> c) by (intros x Hx ->; auto).
  pose proof (Hr c (or_introl eq_refl)) as Hcr.
  cbn [length] in Hr, Hu, Hcr.
  split.
  - constructor.
    + rewrite in_map_iff. intros [x [Hx Hin]]. apply Hne in Hin.
      unfold moved in Hx. zbool; lia.
    + apply NoDup_map_on; auto. intros x y Hx Hy.
      apply Hne in Hx, Hy. unfold moved. zbool; lia.
  - cbn [length]. rewrite length_map. intros x [<-|Hx]; [lia|].
    apply in_map_iff in Hx. destruct Hx as [y [<- Hy]].
    pose proof (Hne _ Hy). pose proof (Hr y (or_intror Hy)).
    unfold moved. zbool; lia.
Qed.

Lemma map_id_on {A} (f : A -> A) (l : list A) :
  (forall x, In x l -> f x = x) -> map f l = l.
Proof.
  induction l as [|a l IH]; simpl; intros H; [reflexivity|].
  rewrite H, IH; auto.
Qed.

(** ** Keys and collections *)

Lemma value_eqb_eq a b : value_eqb a b = true <-> a = b.
Proof.
  destruct a as [x|], b as [y|]; simpl; split; intros H;
    try discriminate; try reflexivity.
  - apply Z.eqb_eq in H. now subst.
  - inversion H. apply Z.eqb_refl.
Qed.

Lemma key_eqb_eq a b : key_eqb a b = true <-> a = b.
Proof.
  revert b. induction a as [|x a IH]; intros [|y b]; simpl; split; intros H;
    try discriminate; try reflexivity.
  - apply andb_true_iff in H. destruct H as [H1 H2].
    apply value_eqb_eq in H1. apply IH in H2. now subst.
  - inversion H; subst. apply andb_true_iff. split.
    + now apply value_eqb_eq.
    + now apply IH.
Qed.

Lemma key_eqb_refl a : key_eqb a a = true.
Proof. now apply key_eqb_eq. Qed.

Lemma key_eqb_neq a b : a <> b -> key_eqb a b = false.
Proof.
  intros H. destruct (key_eqb a b) eqn:E; [|reflexivity].
  apply key_eqb_eq in E. contradiction.
Qed.

(** The queryset of [get_collection] selects the rows whose collection
    key is the instance's. *)
Lemma get_collection_key self i r :
  get_collection self i r = in_collection self (key_of self (fields i)) r.
Proof.
  unfold get_collection, in_collection, key_of.
  destruct (collection self) as [names|]; [|reflexivity].
  induction names as [|n names IH]; simpl; [reflexivity|].
  now rewrite IH.
Qed.

Lemma fields_differ_key self names previous current :
  collection self = Some names ->
  fields_differ names previous current
  = negb (key_eqb (key_of self previous) (key_of self current)).
Proof.
  intros E. unfold key_of, fields_differ. rewrite E. clear E.
  induction names as [|n names IH]; simpl; [reflexivity|].
  rewrite IH. now rewrite negb_andb.
Qed.

Lemma key_of_no_collection self fs :
  collection self = None -> key_of self fs = [].
Proof. unfold key_of. now intros ->. Qed.

(** ** Tables *)

Lemma has_pk_true p r : has_pk p r = true <-> r_pk r = p.
Proof. unfold has_pk. apply Z.eqb_eq. Qed.

Lemma find_has_pk p rs r :
  find (has_pk p) rs = Some r -> In r rs /\ r_pk r = p.
Proof.
  intros H. apply find_some in H. now rewrite has_pk_true in H.
Qed.

Lemma find_has_pk_none p rs :
  find (has_pk p) rs = None -> forall r, In r rs -> r_pk r <> p.
Proof.
  intros H r Hr E. apply (find_none _ _ H) in Hr.
  apply has_pk_true in E. congruence.
Qed.

Lemma In_without p rs r : In r (without p rs) <-> In r rs /\ r_pk r <> p.
Proof.
  unfold without. rewrite filter_In. unfold has_pk.
  destruct (Z.eqb_spec (r_pk r) p); simpl; intuition congruence.
Qed.

Lemma without_absent p rs :
  (forall r, In r rs -> r_pk r <> p) -> without p rs = rs.
Proof.
  induction rs as [|a rs IH]; simpl; intros H; [reflexivity|].
  unfold has_pk at 1. destruct (Z.eqb_spec (r_pk a) p) as [E|E]; simpl.
  - exfalso. apply (H a); auto.
  - f_equal. apply IH. auto.
Qed.

Lemma existsb_has_pk p rs r :
  find (has_pk p) rs = Some r -> existsb (has_pk p) rs = true.
Proof.
  intros H. apply find_has_pk in H. apply existsb_exists.
  exists r. now rewrite has_pk_true.
Qed.

(** With unique keys, the table is the row of key [p] and the rest. *)
Lemma split_row p rs r :
  unique_keys rs -> find (has_pk p) rs = Some r ->
  Permutation rs (r :: without p rs).
Proof.
  unfold unique_keys.
  induction rs as [|a rs IH]; simpl; intros Hn Hf; [discriminate|].
  inversion Hn as [|? ? Ha Hrs]; subst.
  unfold has_pk at 1. unfold has_pk at 1 in Hf.
  destruct (Z.eqb_spec (r_pk a) p) as [E|E]; simpl.
  - inversion Hf; subst a. subst p. rewrite without_absent; [reflexivity|].
    intros r' Hr' E'. apply Ha. rewrite <- E'. now apply in_map.
  - rewrite (IH Hrs Hf) at 1. apply perm_swap.
Qed.

Lemma replace_row p (g : row -> row) rs r :
  unique_keys rs -> find (has_pk p) rs = Some r ->
  Permutation (map (fun r' => if has_pk p r' then g r' else r') rs)
              (g r :: without p rs).
Proof.
  unfold unique_keys.
  induction rs as [|a rs IH]; simpl; intros Hn Hf; [discriminate|].
  inversion Hn as [|? ? Ha Hrs]; subst.
  unfold has_pk at 1 3. unfold has_pk at 1 in Hf.
  destruct (Z.eqb_spec (r_pk a) p) as [E|E]; simpl.
  - inversion Hf; subst a. subst p. apply perm_skip.
    assert (Hne : forall r', In r' rs -> r_pk r' <> r_pk r).
    { intros r' Hr' E'. apply Ha. rewrite <- E'. now apply in_map. }
    rewrite without_absent by assumption.
    rewrite map_id_on; [reflexivity|].
    intros x Hx. apply Hne in Hx. unfold has_pk.
    destruct (Z.eqb_spec (r_pk x) (r_pk r)); congruence.
  - rewrite (IH Hrs Hf). apply perm_swap.
Qed.

Lemma Permutation_filter_same {A} (f : A -> bool) l l' :
  Permutation l l' -> Permutation (filter f l) (filter f l').
Proof.
  induction 1 as [|x l l' H IH|x y l|l l' l'' H1 IH1 H2 IH2]; simpl.
  - constructor.
  - destruct (f x); auto.
  - destruct (f x), (f y); auto. apply perm_swap.
  - etransitivity; eauto.
Qed.

Lemma shift_ext q q' d t rs :
  (forall r, In r rs -> q r = q' r) -> shift q d t rs = shift q' d t rs.
Proof.
  intros H. unfold shift. apply map_ext_in. intros r Hr. now rewrite H.
Qed.

Lemma shift_none q d t rs :
  (forall r, In r rs -> q r = false) -> shift q d t rs = rs.
Proof.
  intros H. unfold shift. apply map_id_on. intros r Hr. now rewrite H.
Qed.

Lemma shift_keys q d t rs : map r_pk (shift q d t rs) = map r_pk rs.
Proof.
  unfold shift. rewrite map_map. apply map_ext. intros r.
  now destruct (q r).
Qed.

Lemma filter_shift (f : row -> bool) q d t rs :
  (forall r, f (apply_updates d t r) = f r) ->
  filter f (shift q d t rs) = shift q d t (filter f rs).
Proof.
  intros Hf. induction rs as [|a rs IH]; simpl; [reflexivity|].
  destruct (q a) eqn:E.
  - rewrite Hf. destruct (f a); simpl; rewrite ?E, IH; reflexivity.
  - destruct (f a); simpl; rewrite ?E, IH; reflexivity.
Qed.

Lemma members_shift self k q d t rs :
  members self k (shift q d t rs) = shift q d t (members self k rs).
Proof. apply filter_shift. reflexivity. Qed.

Lemma without_shift p q d t rs :
  without p (shift q d t rs) = shift q d t (without p rs).
Proof. apply filter_shift. reflexivity. Qed.

Lemma members_without self k p rs :
  members self k (without p rs) = without p (members self k rs).
Proof.
  unfold members, without. induction rs as [|a rs IH]; simpl; [reflexivity|].
  destruct (has_pk p a) eqn:E1, (in_collection self k a) eqn:E2;
    simpl; rewrite ?E1, ?E2, IH; reflexivity.
Qed.

(** A bulk update whose predicate depends on the position alone acts on
    the list of positions. *)
Lemma positions_shift q (test : Z -> bool) d t rs :
  (forall r, In r rs -> q r = test (r_position r)) ->
  positions (shift q d t rs)
  = map (fun x => if test x then x + d else x) (positions rs).
Proof.
  intros H. unfold positions, shift. rewrite !map_map.
  apply map_ext_in. intros r Hr. rewrite (H r Hr).
  now destruct (test (r_position r)).
Qed.

Lemma fresh_pk_above rs r : In r rs -> r_pk r < fresh_pk rs.
Proof.
  unfold fresh_pk. induction rs as [|a rs IH]; cbn [fold_right map In]; [tauto|].
  intros [->|H]; [lia|]. apply IH in H. lia.
Qed.

Lemma fresh_pk_positive rs : 0 < fresh_pk rs.
Proof.
  unfold fresh_pk. induction rs as [|a rs IH]; cbn [fold_right map]; lia.
Qed.

Lemma dense_contiguous self k rs :
  dense self k rs <-> contiguous (positions (members self k rs)).
Proof.
  unfold dense. rewrite contiguous_iff. unfold positions.
  now rewrite length_map.
Qed.

(** ** Running the methods when the database does not fail *)

Lemma stamp_run self w : stamp self w = (Ok (stamp_time self w), stamp_world self w).
Proof.
  unfold stamp, stamp_time, stamp_world. destruct (auto_now_fields self); [|reflexivity].
  now destruct w.
Qed.

Ltac simp :=
  cbn [rows clock faults queries collection_changed fst snd pk fields cache next_sibling_pk
       negb andb orb is_None truthy is_Exception is_ObjectDoesNotExist stamp_world
       set_cache set_pk set_fields set_next_sibling_pk instance_of_row] in *.

Ltac run :=
  unfold q_update, q_count, q_first, q_get, q_lookup, send, get_rows, put_rows,
    read_collection_changed, write_collection_changed, try_except, raise, bind, ret in *;
  simp; repeat (rewrite stamp_run; simp).

Lemma filter_get_collection self i rs :
  filter (get_collection self i) rs = members self (key_of self (fields i)) rs.
Proof. apply filter_ext. intros r. apply get_collection_key. Qed.

Lemma resolve_position_append m u :
  0 <= m -> (u =? -1) || (u >=? m) = true -> resolve_position m u = m.
Proof.
  intros Hm H. unfold resolve_position. apply orb_true_iff in H.
  destruct H as [H|H]; zbool; lia.
Qed.

Lemma shift_app q d t l l' : shift q d t (l ++ l') = shift q d t l ++ shift q d t l'.
Proof. apply map_app. Qed.

Lemma create_effect self fs v w :
  faults w = [] ->
  let k := key_of self fs in
  let N := Z.of_nat (length (members self k (rows w))) in
  let u := requested self v in
  let p := fresh_pk (rows w) in
  exists i' w' t t',
    create self fs v w = (Ok i', w') /\ faults w' = [] /\
    get_position i' = Some (resolve_position N u) /\
    rows w' = (if (u =? -1) || (u >=? N) then rows w
               else shift (fun r => in_collection self k r
                                    && (r_position r >=? resolve_position N u))
                          1 t (rows w))
              ++ [Row p fs (resolve_position N u) t'].
Proof.
  intros Hf k N u p. destruct w as [rs ck fl qs cc]. simpl in Hf. subst fl.
  unfold create, save_insert, pre_save, db_insert, update_on_save, init_position. run.
  rewrite filter_get_collection. cbn [fields]. fold (requested self v). fold k N u.
  destruct ((u =? -1) || (u >=? N)) eqn:Hfast; run.
  - rewrite (resolve_position_append N u) by (auto; lia).
    eexists; eexists; exists None; eexists; repeat split; reflexivity.
  - do 4 eexists.
    split; [reflexivity|]. split; [reflexivity|]. split; [reflexivity|].
    cbn [rows]. fold p. rewrite shift_app. f_equal.
    + apply shift_ext. intros r Hr. unfold q_filter, q_exclude_pk.
      rewrite get_collection_key. cbn [fields]. fold k.
      apply fresh_pk_above in Hr. fold p in Hr.
      destruct (Z.eqb_spec (r_pk r) p); [lia|]. cbn. now rewrite andb_true_r.
    + unfold shift, q_filter, q_exclude_pk. cbn. rewrite Z.eqb_refl. cbn.
      now rewrite andb_false_r.
Qed.

Lemma update_missing self p fs v w :
  faults w = [] -> find (has_pk p) (rows w) = None ->
  exists w', update self p fs v w = (Raise ObjectDoesNotExist, w') /\
             faults w' = [] /\ rows w' = rows w.
Proof.
  intros Hf Hnone. destruct w as [rs ck fl qs cc]. simpl in *. subst fl.
  unfold update. run. fold (has_pk p). rewrite Hnone.
  eexists. repeat split; reflexivity.
Qed.

(** Saving an instance that stays in its collection and whose position
    was not assigned. *)
Lemma update_untouched_effect self p fs w r :
  faults w = [] -> find (has_pk p) (rows w) = Some r ->
  key_of self fs = key_of self (r_fields r) ->
  exists i' w' t,
    update self p fs None w = (Ok i', w') /\ faults w' = [] /\
    rows w' = write_row self p fs (r_position r) t (rows w).
Proof.
  intros Hf Hr Hk. destruct w as [rs ck fl qs cc]. simpl in *. subst fl.
  pose proof (find_has_pk _ _ _ Hr) as [_ Hp]. subst p.
  pose proof (existsb_has_pk _ _ _ Hr) as He.
  unfold update, save_update, pre_save, db_write, update_on_save. run.
  fold (has_pk (r_pk r)). rewrite Hr. run.
  destruct (collection self) as [names|] eqn:Hc; run.
  - fold (has_pk (r_pk r)). rewrite Hr. run. rewrite (fields_differ_key self) by assumption.
    rewrite Hk, key_eqb_refl. run.
    rewrite He. run. 
    do 3 eexists. repeat split; reflexivity.
  - rewrite He. run. do 3 eexists. repeat split; reflexivity.
Qed.

Lemma existsb_has_pk_shift p q d t rs :
  existsb (has_pk p) (shift q d t rs) = existsb (has_pk p) rs.
Proof.
  unfold shift. induction rs as [|a rs IH]; simpl; [reflexivity|].
  rewrite IH. f_equal. now destruct (q a).
Qed.

Lemma length_shift q d t rs : length (shift q d t rs) = length rs.
Proof. apply length_map. Qed.

Lemma shift_others self i p test d t rs :
  shift (q_filter (q_exclude_pk (get_collection self i) (Some p)) test) d t rs
  = shift (fun r => in_collection self (key_of self (fields i)) r
                    && negb (has_pk p r) && test r) d t rs.
Proof.
  apply shift_ext. intros r _. unfold q_filter, q_exclude_pk.
  now rewrite get_collection_key.
Qed.

(** Saving an instance that stays in its collection and whose position
    was assigned. *)
Lemma update_within_effect self p fs x w r :
  faults w = [] -> find (has_pk p) (rows w) = Some r ->
  key_of self fs = key_of self (r_fields r) ->
  let k := key_of self fs in
  let N := Z.of_nat (length (members self k (rows w))) in
  let c := r_position r in
  let u := resolve_position (N - 1) (requested self x) in
  exists i' w' t t',
    update self p fs (Some x) w = (Ok i', w') /\ faults w' = [] /\
    rows w' =
      shift (fun r' => in_collection self k r' && negb (has_pk p r')
                       && (if u >? c
                           then (r_position r' >? c) && (r_position r' <=? u)
                           else (r_position r' <? c) && (r_position r' >=? u)))
            (if u >? c then -1 else 1) t
            (write_row self p fs u t' (rows w)).
Proof.
  intros Hf Hr Hk k N c u. destruct w as [rs ck fl qs cc]. simpl in *. subst fl.
  pose proof (find_has_pk _ _ _ Hr) as [_ Hp]. subst p.
  pose proof (existsb_has_pk _ _ _ Hr) as He.
  unfold update, save_update, pre_save, db_write, update_on_save, set_position. run.
  fold (has_pk (r_pk r)). rewrite Hr. run.
  fold (requested self x).
  destruct (collection self) as [names|] eqn:Hc; run.
  - fold (has_pk (r_pk r)). rewrite Hr. run. rewrite (fields_differ_key self) by assumption.
    rewrite Hk, key_eqb_refl. run.
    rewrite filter_get_collection. cbn [fields]. fold k N u c.
    rewrite He. run.
    subst k N c u.
    match goal with |- context [if ?b then _ else _] => destruct b end;
      run; do 4 eexists;
      (split; [reflexivity|]); (split; [reflexivity|]); cbn [rows];
      rewrite shift_others; reflexivity.
  - rewrite filter_get_collection. cbn [fields]. fold k N u c.
    rewrite He. run.
    subst k N c u.
    match goal with |- context [if ?b then _ else _] => destruct b end;
      run; do 4 eexists;
      (split; [reflexivity|]); (split; [reflexivity|]); cbn [rows];
      rewrite shift_others; reflexivity.
Qed.

Lemma shift_collection self i test d t rs :
  shift (q_filter (get_collection self i) test) d t rs
  = shift (fun r => in_collection self (key_of self (fields i)) r && test r) d t rs.
Proof.
  apply shift_ext. intros r _. unfold q_filter. now rewrite get_collection_key.
Qed.

(** Saving an instance whose collection fields were changed. *)
Lemma update_move_effect self p fs v w r :
  faults w = [] -> find (has_pk p) (rows w) = Some r ->
  key_of self fs <> key_of self (r_fields r) ->
  let ko := key_of self (r_fields r) in
  let kn := key_of self fs in
  let M := Z.of_nat (length (members self kn (rows w))) in
  let c := r_position r in
  let u := resolve_position M (match assigned self v with Some x => x | None => -1 end) in
  exists i' w' t1 t2 t3,
    update self p fs v w = (Ok i', w') /\ faults w' = [] /\
    rows w' =
      shift (fun r' => in_collection self kn r' && negb (has_pk p r')
                       && (r_position r' >=? u)) 1 t3
        (write_row self p fs u t2
           (shift (fun r' => in_collection self ko r' && (r_position r' >? c))
                  (-1) t1 (rows w))).
Proof.
  intros Hf Hr Hk ko kn M c u. destruct w as [rs ck fl qs cc]. simpl in *. subst fl.
  pose proof (find_has_pk _ _ _ Hr) as [_ Hp]. subst p.
  pose proof (existsb_has_pk _ _ _ Hr) as He.
  destruct (collection self) as [names|] eqn:Hc.
  2:{ exfalso. apply Hk. now rewrite !key_of_no_collection. }
  assert (Hd : fields_differ names (r_fields r) fs = true).
  { rewrite (fields_differ_key self) by assumption.
    rewrite key_eqb_neq; [reflexivity|congruence]. }
  unfold update, save_update, pre_save, remove_from_collection, db_write,
    update_on_save, set_position. run.
  fold (has_pk (r_pk r)). rewrite Hr. run. rewrite Hc. run.
  destruct v as [x|]; cbn [assigned] in *; run;
    fold (has_pk (r_pk r)); rewrite Hr; run; rewrite Hd; run;
    rewrite filter_get_collection; cbn [fields];
    rewrite members_shift, length_shift; fold kn M;
    rewrite existsb_has_pk_shift, He; run;
    do 5 eexists; (split; [reflexivity|]); (split; [reflexivity|]); cbn [rows];
    rewrite shift_others, shift_collection; reflexivity.
Qed.

(** Deleting an instance: what the table becomes depends on the sibling
    [prepare_delete] found, on the truth value of its key and on whether
    [update_on_delete] finds it again. *)
Lemma destroy_effect_at self p w r :
  faults w = [] -> find (has_pk p) (rows w) = Some r ->
  let k := key_of self (r_fields r) in
  let c := r_position r in
  let t := stamp_time self w in
  exists i' w',
    destroy self p w = (Ok i', w') /\ faults w' = [] /\
    rows w' =
      match filter (fun r' => in_collection self k r' && (r_position r' >? c)) (rows w) with
      | [] => without p (rows w)
      | sibling :: _ =>
          if r_pk sibling =? 0 then without p (rows w)
          else
            match find (has_pk (r_pk sibling)) (without p (rows w)) with
            | Some s =>
                shift (fun r' => in_collection self (key_of self (r_fields s)) r'
                                 && (r_position r' >? c)) (-1) t (without p (rows w))
            | None => without p (rows w)
            end
      end.
Proof.
  intros Hf Hr k c t. destruct w as [rs ck fl qs cc]. simpl in *. subst fl.
  pose proof (find_has_pk _ _ _ Hr) as [_ Hp]. subst p.
  unfold destroy, delete, prepare_delete, get_next_sibling, update_on_delete, db_delete. run.
  fold (has_pk (r_pk r)). rewrite Hr. run.
  assert (Hq : filter (q_filter (get_collection self (instance_of_row r))
                         (fun r0 => r_position r0 >? r_position r)) rs
               = filter (fun r' => in_collection self k r' && (r_position r' >? c)) rs).
  { apply filter_ext. intros a. unfold q_filter. now rewrite get_collection_key. }
  rewrite Hq. clear Hq.
  destruct (filter _ rs) as [|s l]; run.
  - eexists; eexists; repeat split; reflexivity.
  - unfold truthy_pk. destruct (r_pk s =? 0); run.
    + eexists; eexists; repeat split; reflexivity.
    + fold (has_pk (r_pk s)).
      destruct (find (has_pk (r_pk s)) (without (r_pk r) rs)) as [s'|]; run.
      * do 2 eexists. (split; [reflexivity|]); (split; [reflexivity|]); cbn [rows].
        rewrite shift_collection. reflexivity.
      * eexists; eexists; repeat split; reflexivity.
Qed.

Lemma destroy_effect self p w r :
  faults w = [] -> find (has_pk p) (rows w) = Some r ->
  let k := key_of self (r_fields r) in
  let c := r_position r in
  exists i' w' t,
    destroy self p w = (Ok i', w') /\ faults w' = [] /\
    rows w' =
      match filter (fun r' => in_collection self k r' && (r_position r' >? c)) (rows w) with
      | [] => without p (rows w)
      | sibling :: _ =>
          if r_pk sibling =? 0 then without p (rows w)
          else
            match find (has_pk (r_pk sibling)) (without p (rows w)) with
            | Some s =>
                shift (fun r' => in_collection self (key_of self (r_fields s)) r'
                                 && (r_position r' >? c)) (-1) t (without p (rows w))
            | None => without p (rows w)
            end
      end.
Proof.
  intros Hf Hr k c.
  destruct (destroy_effect_at self p w r Hf Hr) as (i' & w' & H).
  exists i', w', (stamp_time self w). exact H.
Qed.

Lemma destroy_missing self p w :
  faults w = [] -> find (has_pk p) (rows w) = None ->
  exists w', destroy self p w = (Raise ObjectDoesNotExist, w') /\
             faults w' = [] /\ rows w' = rows w.
Proof.
  intros Hf Hnone. destruct w as [rs ck fl qs cc]. simpl in *. subst fl.
  unfold destroy. run. fold (has_pk p). rewrite Hnone.
  eexists. repeat split; reflexivity.
Qed.

(** ** The invariant under the three kinds of bulk update *)

Lemma in_collection_eq self k r :
  in_collection self k r = true <-> key_of self (r_fields r) = k.
Proof. unfold in_collection. apply key_eqb_eq. Qed.

Lemma In_members self k r rs :
  In r (members self k rs) <-> In r rs /\ key_of self (r_fields r) = k.
Proof. unfold members. rewrite filter_In, in_collection_eq. tauto. Qed.

Lemma members_cons self k x rs :
  members self k (x :: rs)
  = if in_collection self k x then x :: members self k rs else members self k rs.
Proof. reflexivity. Qed.

Lemma dense_Permutation self k rs rs' :
  Permutation rs rs' -> dense self k rs -> dense self k rs'.
Proof.
  intros HP. rewrite !dense_contiguous. apply contiguous_Permutation.
  unfold positions, members. now apply Permutation_map, Permutation_filter_same.
Qed.

Lemma resolve_position_range m u :
  0 <= m -> 0 <= resolve_position m u <= m.
Proof. intros Hm. unfold resolve_position. zbool; lia. Qed.

(** A bulk update on one collection leaves the members of another as
    they are. *)
Lemma members_other_shift self k k0 q d t rs :
  k <> k0 -> (forall r, q r = true -> in_collection self k0 r = true) ->
  members self k (shift q d t rs) = members self k rs.
Proof.
  intros Hk Hq. rewrite members_shift. apply shift_none.
  intros r Hr. apply In_members in Hr. destruct Hr as [_ Hr].
  destruct (q r) eqn:E; [|reflexivity].
  apply Hq, in_collection_eq in E. congruence.
Qed.

Lemma positions_members_shift self k test d t rs :
  positions (members self k
               (shift (fun r => in_collection self k r && test (r_position r)) d t rs))
  = map (fun x => if test x then x + d else x) (positions (members self k rs)).
Proof.
  rewrite members_shift. apply positions_shift.
  intros r Hr. apply In_members in Hr. destruct Hr as [_ Hr].
  apply in_collection_eq in Hr. now rewrite Hr.
Qed.

Lemma dense_insert self k x u t rs :
  dense self k rs ->
  in_collection self k x = true -> r_position x = u ->
  0 <= u <= Z.of_nat (length (members self k rs)) ->
  dense self k
    (x :: shift (fun r => in_collection self k r && (r_position r >=? u)) 1 t rs).
Proof.
  rewrite !dense_contiguous. intros Hd Hx Hp Hu.
  rewrite members_cons, Hx. cbn [positions map]. fold (positions).
  rewrite (positions_members_shift self k (fun y => y >=? u)), Hp.
  apply contiguous_insert; [assumption|].
  unfold positions. now rewrite length_map.
Qed.

Lemma dense_skip self k x rs :
  in_collection self k x = false ->
  dense self k (x :: rs) <-> dense self k rs.
Proof.
  intros Hx. unfold dense. now rewrite members_cons, Hx.
Qed.

Lemma dense_other_shift self k k0 q d t rs :
  k <> k0 -> (forall r, q r = true -> in_collection self k0 r = true) ->
  dense self k (shift q d t rs) <-> dense self k rs.
Proof.
  intros Hk Hq. unfold dense. now rewrite (members_other_shift self k k0).
Qed.

Lemma dense_split self k p r rs :
  unique_keys rs -> find (has_pk p) rs = Some r ->
  dense self k rs <-> dense self k (r :: without p rs).
Proof.
  intros Hu Hf. pose proof (split_row p rs r Hu Hf) as HP.
  split; apply dense_Permutation; [assumption | now symmetry].
Qed.

Lemma dense_remove self k p r t rs :
  unique_keys rs -> find (has_pk p) rs = Some r ->
  in_collection self k r = true ->
  dense self k rs ->
  dense self k
    (shift (fun r' => in_collection self k r' && (r_position r' >? r_position r))
           (-1) t (without p rs)).
Proof.
  intros Hu Hf Hr Hd. rewrite (dense_split self k p r) in Hd by assumption.
  revert Hd. rewrite !dense_contiguous. rewrite members_cons, Hr.
  cbn [positions map]. fold positions. intros Hd.
  rewrite (positions_members_shift self k (fun y => y >? r_position r)).
  apply contiguous_remove in Hd. exact Hd.
Qed.

Lemma dense_move self k p r x u t rs :
  unique_keys rs -> find (has_pk p) rs = Some r ->
  in_collection self k r = true ->
  in_collection self k x = true -> r_position x = u ->
  0 <= u < Z.of_nat (length (members self k rs)) ->
  dense self k rs ->
  let c := r_position r in
  dense self k
    (x :: shift (fun r' => in_collection self k r'
                           && (if u >? c
                               then (r_position r' >? c) && (r_position r' <=? u)
                               else (r_position r' <? c) && (r_position r' >=? u)))
                (if u >? c then -1 else 1) t (without p rs)).
Proof.
  intros Hu Hf Hr Hx Hp Hrange Hd c.
  pose proof (split_row p rs r Hu Hf) as HP.
  assert (Hlen : length (members self k rs)
                 = S (length (members self k (without p rs)))).
  { unfold members.
    rewrite (Permutation_length (Permutation_filter_same (in_collection self k) _ _ HP)).
    cbn [filter]. rewrite Hr. reflexivity. }
  rewrite (dense_split self k p r) in Hd by assumption.
  revert Hd. rewrite !dense_contiguous. rewrite !members_cons, Hr, Hx.
  cbn [positions map]. fold positions. intros Hd.
  rewrite (positions_members_shift self k
             (fun y => if u >? c then (y >? c) && (y <=? u) else (y <? c) && (y >=? u))).
  rewrite Hp.
  replace (map _ (positions (members self k (without p rs))))
    with (map (moved c u) (positions (members self k (without p rs)))).
  - apply contiguous_move; [assumption|]. cbn [length].
    unfold positions. rewrite length_map. rewrite <- Hlen. assumption.
  - apply map_ext. intros y. unfold moved. destruct (u >? c); reflexivity.
Qed.

(** ** The invariant under the three operations *)

Lemma key_eqb_false a b : key_eqb a b = false -> a <> b.
Proof. intros H E. subst. rewrite key_eqb_refl in H. discriminate. Qed.

Lemma unique_keys_inj rs a b :
  unique_keys rs -> In a rs -> In b rs -> r_pk a = r_pk b -> a = b.
Proof.
  unfold unique_keys. induction rs as [|x rs IH]; simpl; intros Hn Ha Hb E; [tauto|].
  inversion Hn as [|? ? Hx Hrs]; subst.
  destruct Ha as [->|Ha], Hb as [->|Hb]; auto.
  - exfalso. apply Hx. rewrite E. now apply in_map.
  - exfalso. apply Hx. rewrite <- E. now apply in_map.
Qed.

Lemma find_unique rs a :
  unique_keys rs -> In a rs -> find (has_pk (r_pk a)) rs = Some a.
Proof.
  intros Hu Ha. destruct (find (has_pk (r_pk a)) rs) as [b|] eqn:E.
  - apply find_has_pk in E. destruct E as [Hb E].
    f_equal. now apply (unique_keys_inj rs).
  - exfalso. now apply (find_has_pk_none _ _ E a).
Qed.

Lemma write_row_keys self p fs u t rs :
  map r_pk (write_row self p fs u t rs) = map r_pk rs.
Proof.
  unfold write_row. rewrite map_map. apply map_ext. intros r.
  destruct (has_pk p r) eqn:E; [|reflexivity].
  apply has_pk_true in E. now simpl.
Qed.

Lemma without_keys_incl p rs : incl (map r_pk (without p rs)) (map r_pk rs).
Proof.
  intros x Hx. apply in_map_iff in Hx. destruct Hx as [r [<- Hr]].
  apply In_without in Hr. apply in_map. tauto.
Qed.

Lemma unique_keys_without p rs : unique_keys rs -> unique_keys (without p rs).
Proof.
  unfold unique_keys, without. induction rs as [|a rs IH]; simpl; intros Hn; [constructor|].
  inversion Hn as [|? ? Ha Hrs]; subst.
  destruct (negb (has_pk p a)); simpl; auto.
  constructor; auto. intros H. apply Ha.
  apply (without_keys_incl p rs). exact H.
Qed.

Lemma unique_keys_fresh rs x :
  unique_keys rs -> r_pk x = fresh_pk rs -> unique_keys (rs ++ [x]).
Proof.
  unfold unique_keys. intros Hn Hx. rewrite map_app. simpl.
  apply NoDup_app_remove_l with (l := []). simpl.
  apply Permutation_NoDup with (l := r_pk x :: map r_pk rs).
  - apply Permutation_cons_append.
  - constructor; auto. intros H. apply in_map_iff in H.
    destruct H as [r [E Hr]]. apply fresh_pk_above in Hr. lia.
Qed.

Lemma dense_bound self k rs r :
  dense self k rs -> In r rs -> in_collection self k r = true ->
  0 <= r_position r < Z.of_nat (length (members self k rs)).
Proof.
  rewrite dense_contiguous. intros [_ Hd] Hr Hk.
  unfold positions in Hd. rewrite length_map in Hd. apply Hd.
  apply in_map. apply In_members. split; auto. now apply in_collection_eq.
Qed.

(** Under the invariant the fast path of [pre_save] and the insertion
    path describe the same table. *)
Lemma create_ordered self fs v w :
  faults w = [] ->
  let k := key_of self fs in
  let N := Z.of_nat (length (members self k (rows w))) in
  let u := resolve_position N (requested self v) in
  dense self k (rows w) ->
  exists i' w' t t',
    create self fs v w = (Ok i', w') /\ faults w' = [] /\
    get_position i' = Some u /\
    rows w' = shift (fun r => in_collection self k r && (r_position r >=? u)) 1 t (rows w)
              ++ [Row (fresh_pk (rows w)) fs u t'].
Proof.
  intros Hf k N u Hd.
  destruct (create_effect self fs v w Hf) as (i' & w' & t & t' & Hc & Hf' & Hg & Hr).
  exists i', w', t, t'. repeat split; auto.
  rewrite Hr. fold k N u. f_equal.
  destruct ((requested self v =? -1) || (requested self v >=? N)) eqn:Hfast; [|reflexivity].
  symmetry. apply shift_none. intros r Hin.
  destruct (in_collection self k r) eqn:Hk; [|reflexivity]. simpl.
  pose proof (dense_bound self k _ r Hd Hin Hk) as Hb.
  unfold u. rewrite (resolve_position_append N) by (auto; lia).
  fold N in Hb. zbool; lia.
Qed.

Lemma in_collection_row self k p fs u t :
  in_collection self k (Row p fs u t) = key_eqb (key_of self fs) k.
Proof. reflexivity. Qed.

Lemma ordered_insert self k0 x u t rs :
  ordered self rs ->
  key_of self (r_fields x) = k0 -> r_position x = u ->
  0 <= u <= Z.of_nat (length (members self k0 rs)) ->
  ordered self
    (x :: shift (fun r => in_collection self k0 r && (r_position r >=? u)) 1 t rs).
Proof.
  intros Ho Hx Hp Hu k. destruct (key_eqb k k0) eqn:E.
  - apply key_eqb_eq in E. subst k.
    apply dense_insert; auto. now apply in_collection_eq.
  - apply key_eqb_false in E. apply dense_skip.
    + unfold in_collection. rewrite Hx. apply key_eqb_neq. congruence.
    + apply (dense_other_shift self k k0); auto.
      intros r Hr. now apply andb_true_iff in Hr.
Qed.

Lemma create_preserves self fs v w :
  faults w = [] -> unique_keys (rows w) -> truthy_keys (rows w) -> ordered self (rows w) ->
  exists i' w',
    create self fs v w = (Ok i', w') /\ faults w' = [] /\
    unique_keys (rows w') /\ truthy_keys (rows w') /\ ordered self (rows w').
Proof.
  intros Hf Hu Ht Ho.
  destruct (create_ordered self fs v w Hf (Ho _)) as (i' & w' & t & t' & Hc & Hf' & _ & Hr).
  exists i', w'. split; [assumption|]. split; [assumption|].
  rewrite Hr. split; [|split].
  - apply unique_keys_fresh.
    + unfold unique_keys. now rewrite shift_keys.
    + simpl. unfold fresh_pk. now rewrite shift_keys.
  - unfold truthy_keys. rewrite map_app, shift_keys. simpl. rewrite in_app_iff.
    intros [H|[H|[]]]; [now apply Ht|].
    pose proof (fresh_pk_positive (rows w)). lia.
  - intros k. eapply dense_Permutation; [apply Permutation_cons_append|].
    apply ordered_insert; auto.
    apply resolve_position_range. lia.
Qed.

Lemma shift_Permutation q d t rs rs' :
  Permutation rs rs' -> Permutation (shift q d t rs) (shift q d t rs').
Proof. apply Permutation_map. Qed.

Lemma shift_cons_skip q d t x rs :
  q x = false -> shift q d t (x :: rs) = x :: shift q d t rs.
Proof. intros H. unfold shift. simpl. now rewrite H. Qed.

Lemma find_shift p q d t rs :
  find (has_pk p) (shift q d t rs)
  = option_map (fun r => if q r then apply_updates d t r else r) (find (has_pk p) rs).
Proof.
  unfold shift. induction rs as [|a rs IH]; simpl; [reflexivity|].
  replace (has_pk p (if q a then apply_updates d t a else a)) with (has_pk p a)
    by (now destruct (q a)).
  destruct (has_pk p a); [reflexivity|apply IH].
Qed.

Lemma write_row_Permutation self p fs u t rs r :
  unique_keys rs -> find (has_pk p) rs = Some r ->
  Permutation (write_row self p fs u t rs)
              (Row p fs u (stamped t (auto_now_fields self) (r_auto_now r))
               :: without p rs).
Proof.
  intros Hu Hf. unfold write_row.
  apply (replace_row p
           (fun r0 => Row p fs u (stamped t (auto_now_fields self) (r_auto_now r0)))
           rs r Hu Hf).
Qed.

(** The rewritten row and the others, the others shifted. *)
Lemma write_then_shift self p fs u t' (q q' : queryset) d t rs r :
  unique_keys rs -> find (has_pk p) rs = Some r ->
  (forall r', q' r' = q r' && negb (has_pk p r')) ->
  Permutation
    (shift q' d t (write_row self p fs u t' rs))
    (Row p fs u (stamped t' (auto_now_fields self) (r_auto_now r))
     :: shift q d t (without p rs)).
Proof.
  intros Hu Hf Hq.
  etransitivity.
  - apply shift_Permutation. apply (write_row_Permutation self p fs u t' rs r Hu Hf).
  - rewrite shift_cons_skip.
    + apply perm_skip. erewrite shift_ext; [reflexivity|].
      intros r' Hr'. apply In_without in Hr'. destruct Hr' as [_ Hr'].
      rewrite Hq. unfold has_pk. destruct (Z.eqb_spec (r_pk r') p); [contradiction|].
      simpl. now rewrite andb_true_r.
    + rewrite Hq. unfold has_pk. simpl. rewrite Z.eqb_refl. simpl. now rewrite andb_false_r.
Qed.

Lemma ordered_without self p r rs k :
  unique_keys rs -> find (has_pk p) rs = Some r ->
  in_collection self k r = false ->
  dense self k rs <-> dense self k (without p rs).
Proof.
  intros Hu Hf Hk. rewrite (dense_split self k p r) by assumption.
  now apply dense_skip.
Qed.

Lemma length_members_without self p r rs k :
  unique_keys rs -> find (has_pk p) rs = Some r ->
  in_collection self k r = false ->
  length (members self k (without p rs)) = length (members self k rs).
Proof.
  intros Hu Hf Hk. pose proof (split_row p rs r Hu Hf) as HP.
  unfold members.
  rewrite (Permutation_length (Permutation_filter_same (in_collection self k) _ _ HP)).
  cbn [filter]. now rewrite Hk.
Qed.

Lemma update_untouched_preserves self p fs w r :
  faults w = [] -> unique_keys (rows w) -> truthy_keys (rows w) -> ordered self (rows w) ->
  find (has_pk p) (rows w) = Some r ->
  key_of self fs = key_of self (r_fields r) ->
  exists i' w',
    update self p fs None w = (Ok i', w') /\ faults w' = [] /\
    unique_keys (rows w') /\ truthy_keys (rows w') /\ ordered self (rows w').
Proof.
  intros Hf Hu Ht Ho Hr Hk.
  destruct (update_untouched_effect self p fs w r Hf Hr Hk) as (i' & w' & t & Hc & Hf' & Hrows).
  exists i', w'. split; [assumption|]. split; [assumption|].
  rewrite Hrows. split; [|split].
  - unfold unique_keys. now rewrite write_row_keys.
  - unfold truthy_keys. now rewrite write_row_keys.
  - intros k. pose proof (Ho k) as Hd.
    rewrite (dense_split self k p r) in Hd by assumption.
    eapply dense_Permutation.
    { symmetry. apply (write_row_Permutation self p fs _ t (rows w) r Hu Hr). }
    revert Hd. unfold dense. rewrite !members_cons.
    replace (in_collection self k (Row p fs (r_position r)
               (stamped t (auto_now_fields self) (r_auto_now r))))
      with (in_collection self k r).
    + now destruct (in_collection self k r).
    + unfold in_collection. simpl. now rewrite Hk.
Qed.

Lemma update_within_preserves self p fs x w r :
  faults w = [] -> unique_keys (rows w) -> truthy_keys (rows w) -> ordered self (rows w) ->
  find (has_pk p) (rows w) = Some r ->
  key_of self fs = key_of self (r_fields r) ->
  exists i' w',
    update self p fs (Some x) w = (Ok i', w') /\ faults w' = [] /\
    unique_keys (rows w') /\ truthy_keys (rows w') /\ ordered self (rows w').
Proof.
  intros Hf Hu Ht Ho Hr Hk.
  destruct (update_within_effect self p fs x w r Hf Hr Hk)
    as (i' & w' & t & t' & Hc & Hf' & Hrows).
  exists i', w'. split; [assumption|]. split; [assumption|].
  rewrite Hrows. split; [|split].
  - unfold unique_keys. now rewrite shift_keys, write_row_keys.
  - unfold truthy_keys. now rewrite shift_keys, write_row_keys.
  - set (k0 := key_of self fs) in *.
    set (N := Z.of_nat (length (members self k0 (rows w)))).
    set (u := resolve_position (N - 1) (requested self x)).
    assert (Hin : in_collection self k0 r = true) by (now apply in_collection_eq).
    assert (HN : 0 < N).
    { pose proof (dense_bound self k0 _ r (Ho k0) (proj1 (find_has_pk _ _ _ Hr)) Hin).
      subst N. lia. }
    assert (Hrange : 0 <= u <= N - 1) by (apply resolve_position_range; lia).
    intros k. eapply dense_Permutation.
    { symmetry. apply write_then_shift with (r := r)
        (q := fun r' => in_collection self k0 r'
                   && (if u >? r_position r
                       then (r_position r' >? r_position r) && (r_position r' <=? u)
                       else (r_position r' <? r_position r) && (r_position r' >=? u)));
        auto.
      intros r'. destruct (in_collection self k0 r'), (has_pk p r'); simpl;
        rewrite ?andb_true_r, ?andb_false_r; reflexivity. }
    destruct (key_eqb k k0) eqn:E.
    + apply key_eqb_eq in E. subst k.
      apply (dense_move self k0 p r); auto.
      * unfold in_collection. simpl. apply key_eqb_refl.
      * fold N. lia.
    + apply key_eqb_false in E. apply dense_skip.
      * unfold in_collection. simpl. apply key_eqb_neq. fold k0. congruence.
      * apply (dense_other_shift self k k0); auto.
        -- intros r' Hr'. now apply andb_true_iff in Hr'.
        -- assert (Hnot : in_collection self k r = false).
           { apply in_collection_eq in Hin.
             unfold in_collection. apply key_eqb_neq. congruence. }
           apply (proj1 (ordered_without self p r (rows w) k Hu Hr Hnot)). apply Ho.
Qed.

Lemma ordered_remove self p r t rs :
  unique_keys rs -> find (has_pk p) rs = Some r -> ordered self rs ->
  ordered self
    (shift (fun r' => in_collection self (key_of self (r_fields r)) r'
                      && (r_position r' >? r_position r)) (-1) t (without p rs)).
Proof.
  intros Hu Hf Ho k. set (k0 := key_of self (r_fields r)).
  destruct (key_eqb k k0) eqn:E.
  - apply key_eqb_eq in E. subst k.
    apply dense_remove; auto. now apply in_collection_eq.
  - apply key_eqb_false in E.
    apply (dense_other_shift self k k0); auto.
    + intros r' Hr'. now apply andb_true_iff in Hr'.
    + assert (Hnot : in_collection self k r = false).
      { unfold in_collection. apply key_eqb_neq. fold k0. congruence. }
      apply (proj1 (ordered_without self p r rs k Hu Hf Hnot)). apply Ho.
Qed.

Lemma update_move_preserves self p fs v w r :
  faults w = [] -> unique_keys (rows w) -> truthy_keys (rows w) -> ordered self (rows w) ->
  find (has_pk p) (rows w) = Some r ->
  key_of self fs <> key_of self (r_fields r) ->
  exists i' w',
    update self p fs v w = (Ok i', w') /\ faults w' = [] /\
    unique_keys (rows w') /\ truthy_keys (rows w') /\ ordered self (rows w').
Proof.
  intros Hf Hu Ht Ho Hr Hk.
  destruct (update_move_effect self p fs v w r Hf Hr Hk)
    as (i' & w' & t1 & t2 & t3 & Hc & Hf' & Hrows).
  exists i', w'. split; [assumption|]. split; [assumption|].
  rewrite Hrows. split; [|split].
  - unfold unique_keys. now rewrite shift_keys, write_row_keys, shift_keys.
  - unfold truthy_keys. now rewrite shift_keys, write_row_keys, shift_keys.
  - set (ko := key_of self (r_fields r)) in *.
    set (kn := key_of self fs) in *.
    set (M := Z.of_nat (length (members self kn (rows w)))).
    set (u := resolve_position M _).
    set (q_out := fun r' => in_collection self ko r' && (r_position r' >? r_position r)).
    assert (Hnot : in_collection self kn r = false).
    { unfold in_collection. apply key_eqb_neq. fold ko. congruence. }
    assert (Hfind : find (has_pk p) (shift q_out (-1) t1 (rows w)) = Some r).
    { rewrite find_shift, Hr. simpl. unfold q_out.
      rewrite Z.gtb_ltb, Z.ltb_irrefl, andb_false_r. reflexivity. }
    assert (Hu1 : unique_keys (shift q_out (-1) t1 (rows w))).
    { unfold unique_keys. now rewrite shift_keys. }
    intros k. eapply dense_Permutation.
    { symmetry. apply write_then_shift with (r := r)
        (q := fun r' => in_collection self kn r' && (r_position r' >=? u)); auto.
      intros r'. destruct (in_collection self kn r'), (has_pk p r'); simpl;
        rewrite ?andb_true_r, ?andb_false_r; reflexivity. }
    rewrite without_shift.
    apply ordered_insert; auto.
    + apply ordered_remove; auto.
    + rewrite members_shift, length_shift.
      rewrite (length_members_without self p r); auto.
      fold M. apply resolve_position_range. subst M. lia.
Qed.

(** With unique keys none of which is falsy, a deletion closes the gap:
    the sibling is found again, in the collection of the deleted row. *)
Lemma destroy_closes_at self p w r :
  faults w = [] -> unique_keys (rows w) -> truthy_keys (rows w) ->
  find (has_pk p) (rows w) = Some r ->
  exists i' w',
    destroy self p w = (Ok i', w') /\ faults w' = [] /\
    rows w' = shift (fun r' => in_collection self (key_of self (r_fields r)) r'
                               && (r_position r' >? r_position r))
                    (-1) (stamp_time self w) (without p (rows w)).
Proof.
  intros Hf Hu Ht Hr.
  destruct (destroy_effect_at self p w r Hf Hr) as (i' & w' & Hd & Hf' & Hrows).
  exists i', w'. split; [assumption|]. split; [assumption|].
  rewrite Hrows. clear Hrows Hd.
  set (q := fun r' => in_collection self (key_of self (r_fields r)) r'
                      && (r_position r' >? r_position r)).
  destruct (filter q (rows w)) as [|s l] eqn:Hs.
  - symmetry. apply shift_none. intros r' Hr'. apply In_without in Hr'.
    destruct (q r') eqn:E; [|reflexivity].
    assert (Hin : In r' (filter q (rows w))) by (apply filter_In; tauto).
    rewrite Hs in Hin. destruct Hin.
  - assert (Hin : In s (filter q (rows w))) by (rewrite Hs; now left).
    apply filter_In in Hin. destruct Hin as [Hin Hq].
    unfold q in Hq. apply andb_true_iff in Hq. destruct Hq as [Hk Hpos].
    destruct (Z.eqb_spec (r_pk s) 0) as [E|E].
    { exfalso. apply Ht. rewrite <- E. now apply in_map. }
    assert (Hne : r_pk s <> p).
    { intros E'. destruct (find_has_pk _ _ _ Hr) as [Hrin Hp].
      assert (s = r) by (apply (unique_keys_inj (rows w)); auto; congruence).
      subst s. rewrite Z.gtb_ltb, Z.ltb_irrefl in Hpos. discriminate. }
    rewrite (find_unique (without p (rows w)) s).
    + apply in_collection_eq in Hk. rewrite Hk. reflexivity.
    + now apply unique_keys_without.
    + apply In_without. auto.
Qed.

Lemma destroy_closes self p w r :
  faults w = [] -> unique_keys (rows w) -> truthy_keys (rows w) ->
  find (has_pk p) (rows w) = Some r ->
  exists i' w' t,
    destroy self p w = (Ok i', w') /\ faults w' = [] /\
    rows w' = shift (fun r' => in_collection self (key_of self (r_fields r)) r'
                               && (r_position r' >? r_position r))
                    (-1) t (without p (rows w)).
Proof.
  intros Hf Hu Ht Hr.
  destruct (destroy_closes_at self p w r Hf Hu Ht Hr) as (i' & w' & H).
  exists i', w', (stamp_time self w). exact H.
Qed.

Lemma destroy_preserves self p w r :
  faults w = [] -> unique_keys (rows w) -> truthy_keys (rows w) -> ordered self (rows w) ->
  find (has_pk p) (rows w) = Some r ->
  exists i' w',
    destroy self p w = (Ok i', w') /\ faults w' = [] /\
    unique_keys (rows w') /\ truthy_keys (rows w') /\ ordered self (rows w').
Proof.
  intros Hf Hu Ht Ho Hr.
  destruct (destroy_closes self p w r Hf Hu Ht Hr) as (i' & w' & t & Hd & Hf' & Hrows).
  exists i', w'. split; [assumption|]. split; [assumption|].
  rewrite Hrows. split; [|split].
  - unfold unique_keys. rewrite shift_keys. now apply unique_keys_without.
  - unfold truthy_keys. rewrite shift_keys. intros H. apply Ht.
    now apply (without_keys_incl p).
  - now apply ordered_remove.
Qed.

Lemma perform_preserves self o w :
  consistent self w ->
  exists res w', perform self o w = (res, w') /\ consistent self w'.
Proof.
  intros (Hf & Hu & Ht & Ho). destruct o as [fs v|p fs v|p]; cbn [perform].
  - destruct (create_preserves self fs v w Hf Hu Ht Ho) as (i' & w' & H & H').
    exists (Ok i'), w'. split; assumption.
  - destruct (find (has_pk p) (rows w)) as [r|] eqn:Hr.
    + destruct (key_eqb (key_of self fs) (key_of self (r_fields r))) eqn:E.
      * apply key_eqb_eq in E. destruct v as [x|].
        -- destruct (update_within_preserves self p fs x w r Hf Hu Ht Ho Hr E)
             as (i' & w' & H & H').
           exists (Ok i'), w'. split; assumption.
        -- destruct (update_untouched_preserves self p fs w r Hf Hu Ht Ho Hr E)
             as (i' & w' & H & H').
           exists (Ok i'), w'. split; assumption.
      * apply key_eqb_false in E.
        destruct (update_move_preserves self p fs v w r Hf Hu Ht Ho Hr E)
          as (i' & w' & H & H').
        exists (Ok i'), w'. split; assumption.
    + destruct (update_missing self p fs v w Hf Hr) as (w' & H & Hf' & Hrows).
      exists (Raise ObjectDoesNotExist), w'. split; [assumption|].
      unfold consistent. rewrite Hrows. auto.
  - destruct (find (has_pk p) (rows w)) as [r|] eqn:Hr.
    + destruct (destroy_preserves self p w r Hf Hu Ht Ho Hr) as (i' & w' & H & H').
      exists (Ok i'), w'. split; assumption.
    + destruct (destroy_missing self p w Hf Hr) as (w' & H & Hf' & Hrows).
      exists (Raise ObjectDoesNotExist), w'. split; [assumption|].
      unfold consistent. rewrite Hrows. auto.
Qed.

Lemma perform_all_preserves self os w :
  consistent self w -> consistent self (snd (perform_all self os w)).
Proof.
  revert w. induction os as [|o os IH]; intros w Hw; cbn [perform_all].
  - exact Hw.
  - destruct (perform_preserves self o w Hw) as (res & w' & H & Hw').
    unfold bind. rewrite H. destruct res as [i'|e]; [|exact Hw'].
    now apply IH.
Qed.

Lemma Forall2_map_same {A B} (R : A -> B -> Prop) (f : A -> B) (l : list A) :
  (forall a, In a l -> R a (f a)) -> Forall2 R l (map f l).
Proof.
  induction l as [|a l IH]; simpl; intros H; constructor; auto.
Qed.

Lemma shift_bulk_updated (q : queryset) (touched : row -> Prop) d t rs :
  (forall r, In r rs -> q r = true <-> touched r) ->
  bulk_updated touched d t rs (shift q d t rs).
Proof.
  intros H. unfold bulk_updated, shift. apply Forall2_map_same.
  intros r Hr. specialize (H r Hr). destruct (q r); split; intros Ht.
  - unfold apply_updates. cbn [r_pk r_fields r_position r_auto_now].
    repeat split. destruct t as [right_now|]; [|reflexivity]. split.
    + apply length_map.
    + intros x Hx. apply in_map_iff in Hx. destruct Hx as [_ [<- _]]. reflexivity.
  - exfalso. apply Ht. now apply H.
  - apply H in Ht. discriminate.
  - reflexivity.
Qed.

(** ** What [pre_save] returns *)

Lemma pre_save_new self i w :
  faults w = [] ->
  let m := count_in self (fields i) (rows w) in
  exists i' w',
    pre_save self i true w = (Ok (resolve_position m (requested_new i), i'), w') /\
    faults w' = [] /\ rows w' = rows w.
Proof.
  intros Hf m. unfold requested_new. destruct w as [rs ck fl qs cc]. simpl in *. subst fl.
  unfold pre_save. run.
  destruct (cache i) as [[c|] [u|]]; cbn [fst snd] in *; run.
  all: rewrite filter_get_collection; fold (count_in self (fields i) rs); fold m.
  all: match goal with |- context [if ?b then _ else _] => destruct b eqn:Hfast end; run.
  all: try (cbn in Hfast; discriminate).
  all: try (rewrite (resolve_position_append m) by (auto; unfold m, count_in; lia)).
  all: do 2 eexists; repeat split; reflexivity.
Qed.

Lemma pre_save_pending self i w row c x :
  faults w = [] ->
  has_key (pk i) (rows w) = Some row ->
  key_of self (fields i) = key_of self (r_fields row) ->
  cache i = (Some c, Some x) ->
  let m := count_in self (fields i) (rows w) - 1 in
  exists i' w',
    pre_save self i false w = (Ok (resolve_position m x, i'), w') /\
    faults w' = [] /\ rows w' = rows w.
Proof.
  intros Hf Hrow Hk Hc m. destruct w as [rs ck fl qs cc]. simpl in *. subst fl.
  destruct (pk i) as [p|] eqn:Hp; [|discriminate]. cbn [has_key] in Hrow.
  unfold pre_save. run. rewrite Hp, Hc.
  destruct (collection self) as [names|] eqn:Hcol; run.
  - fold (has_pk p). rewrite Hrow. run.
    rewrite (fields_differ_key self) by assumption.
    rewrite Hk, key_eqb_refl. run.
    rewrite filter_get_collection. fold (count_in self (fields i) rs). fold m.
    do 2 eexists; repeat split; reflexivity.
  - rewrite filter_get_collection. fold (count_in self (fields i) rs). fold m.
    do 2 eexists; repeat split; reflexivity.
Qed.

Lemma pre_save_moved self i w row :
  faults w = [] ->
  has_key (pk i) (rows w) = Some row ->
  key_of self (fields i) <> key_of self (r_fields row) ->
  let m := count_in self (fields i) (rows w) in
  exists i' w' t,
    pre_save self i false w = (Ok (resolve_position m (requested_moved i), i'), w') /\
    faults w' = [] /\
    rows w' = shift (fun r' => in_collection self (key_of self (r_fields row)) r'
                               && (r_position r' >? r_position row))
                    (-1) t (rows w).
Proof.
  intros Hf Hrow Hk m. unfold requested_moved.
  destruct w as [rs ck fl qs cc]. simpl in *. subst fl.
  destruct (pk i) as [p|] eqn:Hp; [|discriminate]. cbn [has_key] in Hrow.
  destruct (collection self) as [names|] eqn:Hcol.
  2:{ exfalso. apply Hk. now rewrite !key_of_no_collection. }
  assert (Hd : fields_differ names (r_fields row) (fields i) = true).
  { rewrite (fields_differ_key self) by assumption.
    rewrite key_eqb_neq; [reflexivity|congruence]. }
  unfold pre_save, remove_from_collection. run. rewrite Hp, Hcol. run.
  fold (has_pk p). rewrite Hrow. run. rewrite Hd. run.
  destruct (cache i) as [c [u|]]; cbn [fst snd] in *; run.
  all: rewrite filter_get_collection, members_shift, length_shift;
    fold (count_in self (fields i) rs); fold m.
  all: do 3 eexists; (split; [reflexivity|]); (split; [reflexivity|]); cbn [rows];
    rewrite shift_collection; reflexivity.
Qed.





(** On every input on which it repositions, [pre_save] returns, and
    returns the requested value resolved against the highest position. *)
Lemma pre_save_resolves self i add w max_position r :
  faults w = [] ->
  repositions self i w add max_position r ->
  exists i' w',
    pre_save self i add w = (Ok (resolve_position max_position r, i'), w').
Proof.
  intros Hf H. destruct H as [|row Hrow Hk|row c x Hrow Hk Hc].
  - destruct (pre_save_new self i w Hf) as (i' & w' & H & _). eauto.
  - destruct (pre_save_moved self i w row Hf Hrow Hk) as (i' & w' & t & H & _). eauto.
  - destruct (pre_save_pending self i w row c x Hf Hrow Hk Hc) as (i' & w' & H & _). eauto.
Qed.

(** C2: for every requested value [r] and every highest position
    [m >= 0], the resolution gives [r] itself when [0 <= r <= m], [m]
    when [r > m], [m + 1 + r] when [r < 0] and [|r| <= m + 1], and [0]
    when [r < 0] and [|r| > m + 1]; and on every input on which
    [pre_save] repositions with that [r] and [m], this is the position
    it returns. *)
Theorem pre_save_resolution (r m : Z) :
  0 <= m ->
  ((0 <= r <= m -> resolve_position m r = r) /\
   (r > m -> resolve_position m r = m) /\
   (r < 0 -> Z.abs r <= m + 1 -> resolve_position m r = m + 1 + r) /\
   (r < 0 -> Z.abs r > m + 1 -> resolve_position m r = 0)) /\
  (forall self i add w,
     faults w = [] ->
     repositions self i w add m r ->
     exists i' w', pre_save self i add w = (Ok (resolve_position m r, i'), w')).
Proof.
  intros Hm. split.
  - unfold resolve_position. repeat split; intros; zbool; lia.
  - intros self i add w Hf H. now apply pre_save_resolves.
Qed.

(** In a collection of five, [-1] is the last position, 4, and [-7] is 0. *)
Lemma pre_save_resolution_witness :
  (resolve_position 4 (-1) = 4 /\
   exists i' w',
     pre_save plain (Instance (Some 2) [Some 7] (Some 1, Some (-1)) None) false
              (empty_world five) = (Ok (resolve_position 4 (-1), i'), w')) /\
  (resolve_position 4 (-7) = 0 /\
   exists i' w',
     pre_save plain (Instance (Some 2) [Some 7] (Some 1, Some (-7)) None) false
              (empty_world five) = (Ok (resolve_position 4 (-7), i'), w')).
Proof.
  split.
  - destruct (pre_save_resolution (-1) 4 ltac:(lia)) as [(_ & _ & H3 & _) H].
    split.
    + rewrite (H3 ltac:(lia) ltac:(cbn; lia)). reflexivity.
    + exact (H plain (Instance (Some 2) [Some 7] (Some 1, Some (-1)) None) false
               (empty_world five) eq_refl
               (pending_value plain (Instance (Some 2) [Some 7] (Some 1, Some (-1)) None)
                  (empty_world five) (Row 2 [Some 7] 1 []) 1 (-1)
                  eq_refl eq_refl eq_refl)).
  - destruct (pre_save_resolution (-7) 4 ltac:(lia)) as [(_ & _ & _ & H4) H].
    split.
    + rewrite (H4 ltac:(lia) ltac:(cbn; lia)). reflexivity.
    + exact (H plain (Instance (Some 2) [Some 7] (Some 1, Some (-7)) None) false
               (empty_world five) eq_refl
               (pending_value plain (Instance (Some 2) [Some 7] (Some 1, Some (-7)) None)
                  (empty_world five) (Row 2 [Some 7] 1 []) 1 (-7)
                  eq_refl eq_refl eq_refl)).
Defined.





Lemma resolve_position_valid m u : 0 <= u <= m -> resolve_position m u = u.
Proof. intros H. unfold resolve_position. zbool; lia. Qed.





(** C5: when a member moves within its collection from [c] to [u],
    [update_on_save] sends one UPDATE; it never touches the row of the
    instance; for [u > c] it moves down by one exactly the other members
    whose position is in [(c, u]], for [u < c] it moves up by one exactly
    the other members whose position is in [[u, c)]; every other row of
    the table is left as it was.  The rows moved keep their key and
    fields and have their [auto_now] columns set to the time of the
    call. *)
Theorem update_on_save_within self i c u w :
  faults w = [] ->
  cache i = (Some c, Some u) ->
  collection_changed w <> Some true ->
  exists w',
    update_on_save self i false w = (Ok (set_cache i (Some u, None)), w') /\
    queries w' = (QUpdate, None) :: queries w /\
    bulk_updated
      (fun r => Some (r_pk r) <> pk i /\
                key_of self (r_fields r) = key_of self (fields i) /\
                ((c < u /\ c < r_position r <= u) \/
                 (u < c /\ u <= r_position r < c)))
      (if c <? u then -1 else 1) (stamp_time self w) (rows w) (rows w').
Proof.
  intros Hf Hc Hcc. destruct w as [rs ck fl qs cc]. simpl in *. subst fl.
  assert (Ht : truthy cc = false).
  { destruct cc as [[|]|]; try reflexivity. congruence. }
  unfold update_on_save. run. rewrite Hc, Ht. run.
  rewrite Z.gtb_ltb.
  destruct (Z.ltb_spec c u) as [Hlt|Hge]; run.
  - eexists. split; [reflexivity|]. split; [reflexivity|]. cbn [rows].
    apply (shift_bulk_updated _ _ _ (stamp_time self (World rs ck [] qs cc))).
    intros r _.
    unfold q_filter, q_exclude_pk. rewrite get_collection_key.
    rewrite !andb_true_iff, in_collection_eq, negb_true_iff.
    destruct (pk i) as [p|].
    + destruct (Z.eqb_spec (r_pk r) p); zbool; intuition (try congruence; try lia).
    + zbool; intuition (try congruence; try lia).
  - eexists. split; [reflexivity|]. split; [reflexivity|]. cbn [rows].
    apply (shift_bulk_updated _ _ _ (stamp_time self (World rs ck [] qs cc))).
    intros r _.
    unfold q_filter, q_exclude_pk. rewrite get_collection_key.
    rewrite !andb_true_iff, in_collection_eq, negb_true_iff.
    destruct (pk i) as [p|].
    + destruct (Z.eqb_spec (r_pk r) p); zbool; intuition (try congruence; try lia).
    + zbool; intuition (try congruence; try lia).
Qed.

Lemma update_on_save_within_witness :
  exists w',
    update_on_save plain (Instance (Some 2) [Some 7] (Some 1, Some 3) None) false
                   (World five 0 [] [] (Some false))
    = (Ok (Instance (Some 2) [Some 7] (Some 3, None) None), w') /\
    queries w' = [(QUpdate, None)] /\
    bulk_updated
      (fun r => Some (r_pk r) <> Some 2 /\
                key_of plain (r_fields r) = [Some 7] /\
                ((1 < 3 /\ 1 < r_position r <= 3) \/
                 (3 < 1 /\ 3 <= r_position r < 1)))
      (-1) (stamp_time plain (World five 0 [] [] (Some false))) five (rows w').
Proof.
  apply (update_on_save_within plain (Instance (Some 2) [Some 7] (Some 1, Some 3) None)
           1 3 (World five 0 [] [] (Some false)) eq_refl eq_refl).
  discriminate.
Defined.

Lemma find_map_keys p (F : row -> row) rs :
  (forall a, r_pk (F a) = r_pk a) ->
  find (has_pk p) (map F rs) = option_map F (find (has_pk p) rs).
Proof.
  intros HF. induction rs as [|a rs IH]; simpl; [reflexivity|].
  unfold has_pk at 1 3. rewrite HF. destruct (r_pk a =? p); [reflexivity|apply IH].
Qed.

(** The table after a move between collections, up to the order of its
    rows: the moved row, and the others after the two bulk updates. *)
Lemma moved_table_Permutation self p fs u t1 t2 t3 rs r :
  unique_keys rs -> find (has_pk p) rs = Some r ->
  let ko := key_of self (r_fields r) in
  let kn := key_of self fs in
  Permutation
    (shift (fun r' => in_collection self kn r' && negb (has_pk p r')
                      && (r_position r' >=? u)) 1 t3
       (write_row self p fs u t2
          (shift (fun r' => in_collection self ko r' && (r_position r' >? r_position r))
                 (-1) t1 rs)))
    (Row p fs u (stamped t2 (auto_now_fields self) (r_auto_now r))
     :: shift (fun r' => in_collection self kn r' && (r_position r' >=? u)) 1 t3
          (shift (fun r' => in_collection self ko r' && (r_position r' >? r_position r))
                 (-1) t1 (without p rs))).
Proof.
  intros Hu Hr ko kn.
  rewrite <- without_shift.
  apply write_then_shift.
  - unfold unique_keys. now rewrite shift_keys.
  - rewrite find_shift, Hr. simpl.
    rewrite Z.gtb_ltb, Z.ltb_irrefl, andb_false_r. reflexivity.
  - intros r'. destruct (in_collection self kn r'), (has_pk p r'); simpl;
      rewrite ?andb_true_r, ?andb_false_r; reflexivity.
Qed.

(** C6: when a member is saved with other collection fields, every
    other member of the collection it leaves whose position is above its
    own is moved down by one, the others stay, and that collection is
    dense again; when the move is an append the row is stored in the new
    collection at the count that collection had, and the members of the
    new collection are left as they were. *)
Theorem move_between_collections self p fs v w r :
  faults w = [] -> unique_keys (rows w) ->
  find (has_pk p) (rows w) = Some r ->
  let ko := key_of self (r_fields r) in
  let kn := key_of self fs in
  let c := r_position r in
  let M := count_in self fs (rows w) in
  kn <> ko ->
  dense self ko (rows w) -> dense self kn (rows w) ->
  exists i' w' right_now,
    update self p fs v w = (Ok i', w') /\
    Forall2 (fun a a' => r_pk a <> p -> key_of self (r_fields a) = ko ->
                         (c < r_position a -> a' = apply_updates (-1) right_now a) /\
                         (r_position a <= c -> a' = a))
            (rows w) (rows w') /\
    dense self ko (rows w') /\
    (appends self v M ->
     (exists stamps, find (has_pk p) (rows w') = Some (Row p fs M stamps)) /\
     Forall2 (fun a a' => key_of self (r_fields a) = kn -> a' = a) (rows w) (rows w')).
Proof.
  intros Hf Hu Hr ko kn c M Hk Hdo Hdn.
  destruct (update_move_effect self p fs v w r Hf Hr Hk)
    as (i' & w' & t1 & t2 & t3 & Hupd & _ & Hrows).
  fold ko kn c in Hrows.
  change (Z.of_nat (length (members self kn (rows w)))) with M in Hrows.
  set (u := resolve_position M _) in Hrows.
  exists i', w', t1. split; [exact Hupd|].
  destruct (find_has_pk _ _ _ Hr) as [Hrin Hrp].
  assert (Hother : forall a, In a (rows w) -> r_pk a = p -> a = r).
  { intros a Ha E. apply (unique_keys_inj (rows w)); auto. congruence. }
  split; [|split].
  - rewrite Hrows. unfold shift, write_row. rewrite !map_map.
    apply Forall2_map_same. intros a Ha Hne Hka.
    assert (E1 : in_collection self ko a = true) by (now apply in_collection_eq).
    assert (E2 : has_pk p a = false).
    { unfold has_pk. now destruct (Z.eqb_spec (r_pk a) p). }
    assert (E3 : in_collection self kn a = false).
    { unfold in_collection. rewrite Hka. apply key_eqb_neq. congruence. }
    rewrite E1. cbn [andb].
    destruct (Z.gtb_spec (r_position a) c) as [Hgt|Hle].
    + change (has_pk p (apply_updates (-1) t1 a)) with (has_pk p a). rewrite E2.
      change (in_collection self kn (apply_updates (-1) t1 a))
        with (in_collection self kn a). rewrite E3. cbn [andb].
      split; [reflexivity|lia].
    + rewrite E2, E3. cbn [andb]. split; [lia|reflexivity].
  - rewrite Hrows. eapply dense_Permutation.
    { symmetry. apply (moved_table_Permutation self p fs u t1 t2 t3 (rows w) r Hu Hr). }
    apply dense_skip.
    { unfold in_collection. simpl. fold kn. apply key_eqb_neq. exact Hk. }
    apply (dense_other_shift self ko kn).
    { congruence. }
    { intros r' Hr'. now apply andb_true_iff in Hr'. }
    apply dense_remove; auto. now apply in_collection_eq.
  - intros Happ.
    assert (HuM : u = M).
    { unfold u. destruct Happ as [->|[[-> Hd]|[x [-> Hx]]]]; cbn [assigned requested].
      - apply resolve_position_append; [unfold M, count_in; lia|reflexivity].
      - rewrite Hd. apply resolve_position_append; [unfold M, count_in; lia|reflexivity].
      - apply resolve_position_append; [unfold M, count_in; lia|].
        apply orb_true_iff. destruct Hx as [->|Hx]; [left; reflexivity|right; zbool; lia]. }
    rewrite HuM in Hrows. clear u HuM. split.
    + rewrite Hrows. unfold shift, write_row. rewrite !map_map.
      rewrite find_map_keys, Hr.
      * cbn [option_map]. fold c. rewrite Z.gtb_ltb, Z.ltb_irrefl, andb_false_r.
        rewrite (proj2 (has_pk_true p r) Hrp).
        unfold has_pk at 1. cbn [r_pk]. rewrite Z.eqb_refl.
        cbn [negb andb]. rewrite andb_false_r. eexists. reflexivity.
      * intros a.
        repeat match goal with
               | |- context [if ?b then _ else _] => destruct b eqn:?
               end; cbn [r_pk apply_updates]; try reflexivity;
          match goal with
          | H : has_pk p _ = true |- _ => apply has_pk_true in H; cbn in H; congruence
          end.
    + rewrite Hrows. unfold shift, write_row. rewrite !map_map.
      apply Forall2_map_same. intros a Ha Hka.
      assert (E1 : in_collection self ko a = false).
      { unfold in_collection. rewrite Hka. apply key_eqb_neq. exact Hk. }
      assert (E2 : has_pk p a = false).
      { unfold has_pk. destruct (Z.eqb_spec (r_pk a) p) as [E|E]; [|reflexivity].
        exfalso. apply Hother in E; auto. subst a. apply Hk. exact (eq_sym Hka). }
      assert (E3 : in_collection self kn a = true) by (now apply in_collection_eq).
      pose proof (dense_bound self kn _ a Hdn Ha E3) as Hb.
      rewrite E1. cbn [andb]. rewrite E2, E3. cbn [andb negb].
      change (Z.of_nat (length (members self kn (rows w)))) with M in Hb.
      destruct (Z.geb_spec (r_position a) M); [lia|].
      rewrite ?E2. reflexivity.
Qed.

Lemma move_between_collections_witness :
  exists i' w' right_now,
    update plain 1 [Some 2] None (empty_world two_collections) = (Ok i', w') /\
    Forall2 (fun a a' => r_pk a <> 1 -> key_of plain (r_fields a) = [Some 1] ->
                         (0 < r_position a -> a' = apply_updates (-1) right_now a) /\
                         (r_position a <= 0 -> a' = a))
            two_collections (rows w') /\
    dense plain [Some 1] (rows w') /\
    (exists stamps, find (has_pk 1) (rows w') = Some (Row 1 [Some 2] 2 stamps)) /\
    Forall2 (fun a a' => key_of plain (r_fields a) = [Some 2] -> a' = a)
            two_collections (rows w').
Proof.
  assert (Hu : unique_keys (rows (empty_world two_collections))).
  { unfold unique_keys. cbn. repeat constructor; cbn; lia. }
  destruct (move_between_collections plain 1 [Some 2] None (empty_world two_collections)
              (Row 1 [Some 1] 0 []) eq_refl Hu eq_refl)
    as (i' & w' & t & H1 & H2 & H3 & H4).
  - discriminate.
  - apply Permutation_refl.
  - apply Permutation_refl.
  - exists i', w', t. split; [exact H1|]. split; [exact H2|]. split; [exact H3|].
    apply H4. left. reflexivity.
Defined.

(** ** Failures of the database *)

Ltac split_match H :=
  match type of H with
  | context [match ?x with _ => _ end] =>
      lazymatch x with
      | context [match _ with _ => _ end] => fail
      | _ => destruct x eqn:?
      end
  end.

Ltac run_in H := run; repeat (rewrite stamp_run in H; simp).

Ltac run_ended :=
  match goal with
  | H : (_, _) = (_, _) |- _ => inversion H; subst; clear H
  end.

Ltac sent_since l qs :=
  lazymatch l with
  | qs => constr:(@nil (query * option exn))
  | ?x :: ?l' => let p := sent_since l' qs in constr:(x :: p)
  end.

Ltac surfaced :=
  cbn [queries stamp_world];
  match goal with
  | |- exists sent, ?l = sent ++ ?qs /\ _ => let p := sent_since l qs in exists p
  end;
  (split; [reflexivity|]);
  cbn [In]; intros ? ? ? ?;
  repeat match goal with
         | H : _ \/ _ |- _ => destruct H
         | H : False |- _ => destruct H
         | H : (_, _) = (_, _) |- _ => inversion H; subst; clear H
         end;
  try discriminate;
  try match goal with
      | Hk : pre_save_lets_out _ ?e = true, He : is_ObjectDoesNotExist ?e = true |- _ =>
          unfold pre_save_lets_out in Hk; rewrite He in Hk; discriminate Hk
      end;
  (split; [reflexivity|eexists; reflexivity]).

Ltac swallowing :=
  cbn [queries rows stamp_world];
  match goal with
  | |- exists sent, ?l = sent ++ ?qs /\ _ => let p := sent_since l qs in exists p
  end;
  (split; [reflexivity|]);
  cbn [In]; intros ? ? ? ?;
  repeat match goal with
         | H : _ \/ _ |- _ => destruct H
         | H : False |- _ => destruct H
         | H : (_, _) = (_, _) |- _ => inversion H; subst; clear H
         end;
  try discriminate; (split; [eexists; reflexivity|reflexivity]).

Lemma update_on_save_surfaces self i created :
  surfaces (fun q _ => count_or_update q) (update_on_save self i created).
Proof.
  intros w res w' H. destruct w as [rs ck fl qs cc].
  unfold update_on_save in H. run_in H.
  repeat (split_match H; run_in H).
  all: run_ended.
  all: surfaced.
Qed.

Lemma update_on_delete_surfaces self i :
  surfaces (fun q _ => count_or_update q) (update_on_delete self i).
Proof.
  intros w res w' H. destruct w as [rs ck fl qs cc].
  unfold update_on_delete in H. run_in H.
  repeat (split_match H; run_in H).
  all: run_ended.
  all: surfaced.
Qed.

Lemma pre_save_surfaces self i add :
  surfaces pre_save_lets_out (pre_save self i add).
Proof.
  intros w res w' H. destruct w as [rs ck fl qs cc].
  unfold pre_save, remove_from_collection in H. run_in H.
  repeat (split_match H; run_in H).
  all: run_ended.
  all: surfaced.
Qed.

Lemma prepare_delete_swallows self i :
  swallowed is_first (prepare_delete self i).
Proof.
  intros w res w' H. destruct w as [rs ck fl qs cc].
  unfold prepare_delete, get_next_sibling in H. run_in H.
  repeat (split_match H; run_in H).
  all: run_ended.
  all: swallowing.
Qed.

Lemma update_on_delete_swallows self i :
  swallowed is_get (update_on_delete self i).
Proof.
  intros w res w' H. destruct w as [rs ck fl qs cc].
  unfold update_on_delete in H. run_in H.
  repeat (split_match H; run_in H).
  all: run_ended.
  all: swallowing.
Qed.

Ltac no_sibling :=
  cbn [queries rows stamp_world];
  match goal with
  | |- exists sent, ?l = sent ++ ?qs /\ _ => let p := sent_since l qs in exists p
  end;
  (split; [reflexivity|]);
  cbn [In]; intros ? ? ? ?;
  repeat match goal with
         | H : _ \/ _ |- _ => destruct H
         | H : False |- _ => destruct H
         | H : (_, _) = (_, _) |- _ => inversion H; subst; clear H
         end;
  try discriminate;
  (split; [reflexivity|]); (split; [reflexivity|]);
  eexists; (split; [reflexivity|]); repeat split.

Lemma prepare_delete_no_sibling self i :
  taken_as_no_sibling is_first i (prepare_delete self i).
Proof.
  intros w res w' H. destruct w as [rs ck fl qs cc].
  unfold prepare_delete, get_next_sibling in H. run_in H.
  repeat (split_match H; run_in H).
  all: run_ended.
  all: no_sibling.
Qed.

Lemma update_on_delete_no_sibling self i :
  taken_as_no_sibling is_get i (update_on_delete self i).
Proof.
  intros w res w' H. destruct w as [rs ck fl qs cc].
  unfold update_on_delete in H. run_in H.
  repeat (split_match H; run_in H).
  all: run_ended.
  all: no_sibling.
Qed.

(** With no sibling remembered [update_on_delete] sends no query and
    changes nothing, whatever the database would do. *)
Lemma update_on_delete_without_sibling self i w :
  next_sibling_pk i = None ->
  update_on_delete self i w = (Ok (set_next_sibling_pk i None), w).
Proof.
  intros H. unfold update_on_delete. rewrite H. cbn [truthy_pk]. run.
  now destruct w.
Qed.

(** C9, as the code has it: a failure of the count or of a bulk update
    surfaces unchanged from [pre_save], [update_on_save] and
    [update_on_delete], and so does a failure of the fetch of the
    previous record unless it is a not-found; the failing query is the
    last one sent, so nothing is tried again.  A failure of the read of
    the next sibling, whatever it is, is swallowed by [prepare_delete],
    and so is a failure of the second fetch of the sibling by
    [update_on_delete]: both return and leave the table as it was.
    Both are taken as "no sibling": the failed query is the only one
    sent, the instance comes back with [_next_sibling_pk] set to [None]
    and nothing else changed; and on the instance [prepare_delete]
    returns after a failed read, as on every instance that remembers no
    sibling, [update_on_delete] sends no query and leaves the whole
    state as it is, so the gap is not closed. *)
Theorem store_failures self i add created :
  surfaces pre_save_lets_out (pre_save self i add) /\
  surfaces (fun q _ => count_or_update q) (update_on_save self i created) /\
  surfaces (fun q _ => count_or_update q) (update_on_delete self i) /\
  swallowed is_first (prepare_delete self i) /\
  swallowed is_get (update_on_delete self i) /\
  taken_as_no_sibling is_first i (prepare_delete self i) /\
  taken_as_no_sibling is_get i (update_on_delete self i) /\
  (forall i' w, next_sibling_pk i' = None ->
     exists i'', update_on_delete self i' w = (Ok i'', w) /\
                 next_sibling_pk i'' = None).
Proof.
  split; [apply pre_save_surfaces|].
  split; [apply update_on_save_surfaces|].
  split; [apply update_on_delete_surfaces|].
  split; [apply prepare_delete_swallows|].
  split; [apply update_on_delete_swallows|].
  split; [apply prepare_delete_no_sibling|].
  split; [apply update_on_delete_no_sibling|].
  intros i' w H. eexists. split; [now apply update_on_delete_without_sibling|].
  reflexivity.
Qed.

(** C9 as it is stated fails: the database fails on the read of the next
    sibling, and [prepare_delete] returns as if there were no sibling. *)
Lemma sibling_read_failure_does_not_surface :
  ~ surfaces (fun q _ => count_read_or_update q)
      (prepare_delete plain (instance_of_row (Row 3 [Some 7] 2 []))).
Proof.
  intros H.
  destruct (H (World five 0 [Some (DatabaseError 1)] [] None) _ _ eq_refl)
    as (sent & Hs & Hq).
  cbn in Hs. rewrite app_nil_r in Hs. subst sent.
  destruct (Hq QFirst (DatabaseError 1) (or_introl eq_refl) eq_refl) as [Hres _].
  discriminate Hres.
Qed.

(** What the swallowed failure costs: the deletion goes through, the
    gap stays. *)
Lemma sibling_read_failure_leaves_gap :
  exists i' w',
    destroy plain 3 (World five 0 [None; Some (DatabaseError 1)] [] None) = (Ok i', w') /\
    positions (members plain [Some 7] (rows w')) = [0; 1; 3; 4].
Proof. do 2 eexists. split; reflexivity. Qed.

(** ** Deletion *)


(** X15: when no sibling was remembered, or the one remembered is not
    in the table any more, [update_on_delete] leaves the table as it is
    and forgets the sibling. *)
Lemma gap_closure_skipped self i w :
  faults w = [] ->
  next_sibling_pk i = None \/
  (exists s, next_sibling_pk i = Some s /\ find (has_pk s) (rows w) = None) ->
  exists w',
    update_on_delete self i w = (Ok (set_next_sibling_pk i None), w') /\
    rows w' = rows w.
Proof.
  intros Hf H. destruct w as [rs ck fl qs cc]. simpl in *. subst fl.
  unfold update_on_delete. destruct H as [->|[s [-> Hs]]]; cbn [truthy_pk]; run.
  - eexists. split; reflexivity.
  - destruct (negb (s =? 0)); run.
    + fold (has_pk s). rewrite Hs. run. eexists. split; reflexivity.
    + eexists. split; reflexivity.
Qed.

(** C7 on a sibling whose key is 0: [prepare_delete] remembers the key,
    [update_on_delete] tests it with [if next_sibling_pk:] and skips the
    bulk update; the member that was above the deleted one keeps
    position 1. *)
Theorem delete_with_falsy_sibling_key :
  exists i' w',
    destroy plain 1 (empty_world zero_keyed) = (Ok i', w') /\
    rows w' = [Row 0 [Some 7] 1 []].
Proof. do 2 eexists. split; reflexivity. Qed.

(** ** The invariant *)

(** From a state whose keys are unique and not falsy, whose collections
    are dense and in which the database does not fail, every sequence of
    operations leads to a state of the same kind. *)
Lemma positions_stay_dense self os w k :
  consistent self w -> dense self k (rows (snd (perform_all self os w))).
Proof.
  intros Hw. destruct (perform_all_preserves self os w Hw) as (_ & _ & _ & Ho).
  apply Ho.
Qed.

Lemma nothing_is_consistent self : consistent self (empty_world []).
Proof.
  repeat split.
  - constructor.
  - intros [].
  - intros k. apply Permutation_refl.
Qed.

(** Every table reached from the empty one by the three operations has
    all its collections dense. *)
Lemma reachable_tables_are_dense self os k :
  dense self k (rows (snd (perform_all self os (empty_world [])))).
Proof. apply positions_stay_dense. apply nothing_is_consistent. Qed.

(** C1 on the same table: the collection is dense, and after the
    deletion of its first member it is not; its only member has
    position 1. *)
Theorem density_lost_with_falsy_key :
  dense plain [Some 7] zero_keyed /\
  ~ dense plain [Some 7]
      (rows (snd (perform_all plain [Delete 1] (empty_world zero_keyed)))).
Proof.
  split.
  - apply Permutation_refl.
  - intros H. apply Permutation_length_1 in H. discriminate H.
Qed.

(** * Further properties *)

(** ** Declaring the field *)

(** X1: declaring the field and attaching it to a model ([__init__], then
    [contribute_to_class]) fails exactly when the keyword [unique] is
    given, whatever its value, or when a [unique_together] constraint of
    the model names the field, and then with [TypeError]; otherwise the
    field keeps the default it was given, counts no more [auto_now]
    fields than the model has fields, has no collection exactly when none
    was given, and a single name has become a tuple of one. *)
Theorem declaration_errors dflt coll unique name unique_together auto_now :
  let attached :=
    match __init__ dflt coll unique with
    | Ok d => contribute_to_class d name unique_together auto_now
    | Raise e => Raise e
    end in
  (attached = Raise TypeError <->
   unique <> None \/ exists constraint, In constraint unique_together /\ In name constraint) /\
  (forall self, attached = Ok self ->
     default self = dflt /\
     (auto_now_fields self <= length auto_now)%nat /\
     (collection self = None <-> coll = NoCollection) /\
     (forall n, coll = OneName n -> collection self = Some [n])) /\
  (forall e, attached = Raise e -> e = TypeError).
Proof.
  cbn zeta. unfold __init__, contribute_to_class.
  destruct unique as [b|].
  - split; [|split].
    + split; [intros _; left; discriminate|reflexivity].
    + discriminate.
    + intros e E. now inversion E.
  - destruct (existsb _ unique_together) eqn:E.
    + split; [|split].
      * split; [|reflexivity]. intros _. right.
        apply existsb_exists in E. destruct E as [c [Hc E]].
        apply existsb_exists in E. destruct E as [n [Hn E]].
        apply Nat.eqb_eq in E. subst n. eauto.
      * discriminate.
      * intros e E'. now inversion E'.
    + split; [|split].
      * split; [discriminate|]. intros [H|[c [Hc Hn]]]; [congruence|].
        exfalso. assert (existsb (fun constraint => existsb (Nat.eqb name) constraint)
                           unique_together = true).
        { apply existsb_exists. exists c. split; [assumption|].
          apply existsb_exists. exists name. split; [assumption|apply Nat.eqb_refl]. }
        congruence.
      * intros self H. inversion H; subst. cbn.
        split; [reflexivity|]. split; [apply filter_length_le|].
        split; [destruct coll; split; congruence|]. intros n ->. reflexivity.
      * discriminate.
Qed.

(** ** The accessors and the collection *)

(** X2: the accessor returns what was last assigned, [None] standing
    for the default of the field, on a new instance as on one that has a
    cache; an assignment keeps the current position of the cache, and a
    second assignment replaces the first. *)
Theorem set_then_get self i v v' p fs s :
  get_position (Instance p fs (init_position self v) s) = Some (requested self v) /\
  get_position (set_position self i v) = Some (requested self v) /\
  fst (cache (set_position self i v)) = fst (cache i) /\
  set_position self (set_position self i v) v' = set_position self i v'.
Proof. destruct i as [p0 fs0 [c u] s0]. repeat split. Qed.

(** X3: the querysets of [get_collection] partition the table: a row is
    in the collection of the instance built from it, and a row in the
    collection of an instance selects the same rows as that instance. *)
Theorem collections_partition self i r :
  get_collection self (instance_of_row r) r = true /\
  (get_collection self i r = true ->
   forall r', get_collection self (instance_of_row r) r' = get_collection self i r').
Proof.
  split.
  - rewrite get_collection_key. apply in_collection_eq. reflexivity.
  - intros H r'. rewrite get_collection_key in H. apply in_collection_eq in H.
    rewrite !get_collection_key. cbn [instance_of_row fields]. now rewrite H.
Qed.

(** X4: lines 100 to 115 of [pre_save] leave a resolved position as it
    is: resolving twice is resolving once. *)
Theorem resolve_position_idempotent m r :
  0 <= m ->
  resolve_position m (resolve_position m r) = resolve_position m r.
Proof.
  intros Hm. apply resolve_position_valid. now apply resolve_position_range.
Qed.

Lemma resolve_position_idempotent_witness :
  resolve_position 4 (resolve_position 4 (-7)) = resolve_position 4 (-7).
Proof. apply resolve_position_idempotent. lia. Defined.

(** ** What a method may change in the table *)

Lemma Forall2_same {A} (R : A -> A -> Prop) (l : list A) :
  (forall a, R a a) -> Forall2 R l l.
Proof. intros H. induction l; constructor; auto. Qed.

Lemma only_shifts_same allowed rs : only_shifts allowed rs rs.
Proof. apply Forall2_same. now left. Qed.

Lemma only_shifts_shift (allowed : row -> Prop) (q : queryset) d t rs :
  (forall r, q r = true -> allowed r) -> d = 1 \/ d = -1 ->
  only_shifts allowed rs (shift q d t rs).
Proof.
  intros Hq Hd. unfold only_shifts, shift. apply Forall2_map_same.
  intros r _. destruct (q r) eqn:E; [right|now left].
  split; [now apply Hq|]. cbn. repeat split. destruct Hd; subst; lia.
Qed.

Lemma q_filter_true qs p r : q_filter qs p r = true -> qs r = true /\ p r = true.
Proof. unfold q_filter. apply andb_true_iff. Qed.

Lemma q_exclude_pk_true qs p r :
  q_exclude_pk qs p r = true -> qs r = true /\ Some (r_pk r) <> p.
Proof.
  unfold q_exclude_pk. intros H. apply andb_true_iff in H. destruct H as [H1 H2].
  split; [assumption|]. destruct p as [x|]; [|discriminate].
  apply negb_true_iff in H2. intros E. inversion E; subst. now rewrite Z.eqb_refl in H2.
Qed.

Lemma only_shifts_none (allowed : row -> Prop) rs rs' :
  (forall r, ~ allowed r) -> only_shifts allowed rs rs' -> rs' = rs.
Proof.
  intros Hn H. induction H as [|r r' rs rs' [E|[Ha _]] _ IH].
  - reflexivity.
  - subst. now f_equal.
  - now apply Hn in Ha.
Qed.

Lemma fields_differ_true self names previous current :
  collection self = Some names ->
  fields_differ names previous current = true ->
  key_of self previous <> key_of self current.
Proof.
  intros Hc H. rewrite (fields_differ_key self) in H by assumption.
  apply negb_true_iff in H. now apply key_eqb_false.
Qed.

(** X5: whatever the database does, [pre_save] adds no row, removes
    none and changes no key and no field; the only rows it moves, by one
    position, are those above the stored row of the instance in the
    collection that row is stored in, and only when the instance is not
    new and its collection fields differ from the stored ones.  It leaves
    the table as it is for a new instance, for a field without
    collection, and when the collection fields are the stored ones. *)
Theorem pre_save_scope self i add w :
  let w' := snd (pre_save self i add w) in
  only_shifts (left_behind self i add (rows w)) (rows w) (rows w') /\
  ((add = true \/ collection self = None \/
    (forall r, has_key (pk i) (rows w) = Some r ->
               key_of self (fields i) = key_of self (r_fields r))) ->
   rows w' = rows w).
Proof.
  cbn zeta.
  assert (H1 : only_shifts (left_behind self i add (rows w)) (rows w)
                 (rows (snd (pre_save self i add w)))).
  { destruct (pre_save self i add w) as [res w'] eqn:H. cbn [snd].
    destruct w as [rs ck fl qs cc].
    unfold pre_save, remove_from_collection in H. run_in H.
    repeat (split_match H; run_in H).
    all: run_ended.
    all: cbn [rows stamp_world].
    all: try apply only_shifts_same.
    all: apply only_shifts_shift; [|auto].
    all: intros r' Hr'; apply q_filter_true in Hr'; destruct Hr' as [Hk Hp];
      rewrite get_collection_key in Hk; apply in_collection_eq in Hk;
      cbn [instance_of_row fields] in Hk;
      match goal with
      | Hfind : find _ _ = Some ?s, Hd : fields_differ _ _ _ = true,
        Hc : collection _ = Some _, Hpk : pk _ = Some _ |- _ =>
          exists s; rewrite Hpk; cbn [has_key]; unfold has_pk; rewrite Hfind;
          pose proof (fields_differ_true _ _ _ _ Hc Hd)
      end;
      repeat split; auto; try (now destruct add); zbool; lia. }
  split; [exact H1|].
  intros Hcond. apply (only_shifts_none (left_behind self i add (rows w))); [|exact H1].
  intros r (previous & Ha & Hprev & Hne & _).
  destruct Hcond as [Ht|[Hc|Hsame]].
  - congruence.
  - apply Hne. now rewrite !key_of_no_collection.
  - apply Hne. symmetry. now apply Hsame.
Qed.

(** X6: when the field has a collection and no row has the key of the
    instance, [pre_save] with [add] false catches [ObjectDoesNotExist]
    and goes on as with [add] true: same result, table untouched. *)
Theorem pre_save_missing_row_is_new self i w :
  faults w = [] -> collection self <> None ->
  has_key (pk i) (rows w) = None ->
  fst (pre_save self i false w) = fst (pre_save self i true w) /\
  rows (snd (pre_save self i false w)) = rows w /\
  rows (snd (pre_save self i true w)) = rows w.
Proof.
  intros Hf Hc Hk. destruct w as [rs ck fl qs cc]. simpl in *. subst fl.
  destruct (collection self) as [names|] eqn:Hcol; [|congruence].
  unfold pre_save. run. rewrite Hcol. run.
  assert (Hget : match pk i with
                 | Some x => find (fun r => r_pk r =? x) rs
                 | None => None
                 end = None) by exact Hk.
  destruct (pk i) as [x|]; [rewrite Hget|]; run.
  all: destruct (cache i) as [[c|] [u|]]; run.
  all: match goal with
       | |- context [if ?b then _ else _] => destruct b
       end; run; repeat split; reflexivity.
Qed.

Lemma pre_save_missing_row_is_new_witness :
  fst (pre_save plain (Instance (Some 9) [Some 7] (Some 1, Some 0) None) false
                (empty_world five))
  = fst (pre_save plain (Instance (Some 9) [Some 7] (Some 1, Some 0) None) true
                  (empty_world five)) /\
  rows (snd (pre_save plain (Instance (Some 9) [Some 7] (Some 1, Some 0) None) false
                      (empty_world five))) = five /\
  rows (snd (pre_save plain (Instance (Some 9) [Some 7] (Some 1, Some 0) None) true
                      (empty_world five))) = five.
Proof.
  apply (pre_save_missing_row_is_new plain
           (Instance (Some 9) [Some 7] (Some 1, Some 0) None) (empty_world five) eq_refl).
  - discriminate.
  - reflexivity.
Defined.

(** X7: whatever the database does, [update_on_save] resets
    [_collection_changed] to [None], adds no row, removes none and
    changes no key and no field; the only rows it moves, by one position,
    are rows of the collection of the instance other than its own. *)
Theorem update_on_save_scope self i created w :
  let w' := snd (update_on_save self i created w) in
  collection_changed w' = None /\
  only_shifts (fun r => key_of self (r_fields r) = key_of self (fields i) /\
                        Some (r_pk r) <> pk i)
              (rows w) (rows w').
Proof.
  destruct (update_on_save self i created w) as [res w'] eqn:H. cbn [snd].
  destruct w as [rs ck fl qs cc].
  unfold update_on_save in H. run_in H.
  repeat (split_match H; run_in H).
  all: run_ended.
  all: cbn [rows collection_changed stamp_world]; split; [reflexivity|].
  all: try apply only_shifts_same.
  all: apply only_shifts_shift; [|auto].
  all: intros r Hr; apply q_filter_true in Hr; destruct Hr as [Hr _];
    apply q_exclude_pk_true in Hr; destruct Hr as [Hr Hne];
    rewrite get_collection_key in Hr; apply in_collection_eq in Hr; auto.
Qed.

(** ** Saving *)

Lemma find_write_row self p fs u t rs r :
  find (has_pk p) rs = Some r ->
  find (has_pk p) (write_row self p fs u t rs)
  = Some (Row p fs u (stamped t (auto_now_fields self) (r_auto_now r))).
Proof.
  intros Hr. unfold write_row. rewrite find_map_keys.
  - rewrite Hr. cbn [option_map]. apply find_has_pk in Hr. destruct Hr as [_ Hp].
    now rewrite (proj2 (has_pk_true p r) Hp).
  - intros a. destruct (has_pk p a) eqn:E; [|reflexivity].
    apply has_pk_true in E. now cbn.
Qed.

Lemma find_shift_excluded p q d t rs x :
  find (has_pk p) rs = Some x -> q x = false ->
  find (has_pk p) (shift q d t rs) = Some x.
Proof. intros Hx Hq. rewrite find_shift, Hx. cbn. now rewrite Hq. Qed.

Lemma excluded_own self i p test fs u stamps :
  q_filter (q_exclude_pk (get_collection self i) (Some p)) test (Row p fs u stamps) = false.
Proof.
  unfold q_filter, q_exclude_pk. cbn [r_pk]. rewrite Z.eqb_refl. cbn [negb].
  now rewrite andb_false_r.
Qed.

Lemma save_update_untouched self i p c w r :
  faults w = [] -> pk i = Some p -> cache i = (Some c, None) ->
  find (has_pk p) (rows w) = Some r ->
  key_of self (fields i) = key_of self (r_fields r) ->
  exists w' t,
    save_update self i w = (Ok i, w') /\ faults w' = [] /\
    rows w' = write_row self p (fields i) c t (rows w).
Proof.
  intros Hf Hp Hc Hr Hk. destruct w as [rs ck fl qs cc]. simpl in *. subst fl.
  pose proof (existsb_has_pk _ _ _ Hr) as He.
  unfold save_update, pre_save, db_write, update_on_save. run. rewrite Hp, Hc.
  destruct (collection self) as [names|] eqn:Hcol; run.
  - fold (has_pk p). rewrite Hr. run. rewrite (fields_differ_key self) by assumption.
    rewrite <- Hk, key_eqb_refl. run. rewrite Hp. run. rewrite He. run. rewrite Hc. run.
    do 2 eexists. repeat split; reflexivity.
  - rewrite Hp. run. rewrite He. run. rewrite Hc. run.
    do 2 eexists. repeat split; reflexivity.
Qed.

(** X8: saving an instance whose position was not assigned and whose
    collection fields are the stored ones: [pre_save] returns the current
    position of the cache, [update_on_save] returns at once, the row of
    the instance is written with that position and every other row is
    left as it was. *)
Theorem save_without_assignment self i p c w r :
  faults w = [] -> pk i = Some p -> cache i = (Some c, None) ->
  find (has_pk p) (rows w) = Some r ->
  key_of self (fields i) = key_of self (r_fields r) ->
  exists w',
    save_update self i w = (Ok i, w') /\
    Forall2 (fun a a' => (r_pk a <> p -> a' = a) /\
                         (r_pk a = p -> r_pk a' = p /\ r_fields a' = fields i /\
                                        r_position a' = c))
            (rows w) (rows w').
Proof.
  intros Hf Hp Hc Hr Hk.
  destruct (save_update_untouched self i p c w r Hf Hp Hc Hr Hk) as (w' & t & Hs & _ & Hrows).
  exists w'. split; [exact Hs|]. rewrite Hrows. unfold write_row.
  apply Forall2_map_same. intros a _. unfold has_pk.
  destruct (Z.eqb_spec (r_pk a) p); split; intros H; try contradiction; auto.
Qed.

Lemma save_without_assignment_witness :
  exists w',
    save_update plain (Instance (Some 2) [Some 7] (Some 4, None) None) (empty_world five)
    = (Ok (Instance (Some 2) [Some 7] (Some 4, None) None), w') /\
    Forall2 (fun a a' => (r_pk a <> 2 -> a' = a) /\
                         (r_pk a = 2 -> r_pk a' = 2 /\ r_fields a' = [Some 7] /\
                                        r_position a' = 4))
            five (rows w').
Proof.
  exact (save_without_assignment plain (Instance (Some 2) [Some 7] (Some 4, None) None)
           2 4 (empty_world five) (Row 2 [Some 7] 1 []) eq_refl eq_refl eq_refl eq_refl eq_refl).
Defined.

(** The instance an update returns and the row it leaves. *)
Lemma update_result self p fs v w r :
  faults w = [] -> find (has_pk p) (rows w) = Some r ->
  exists w' u stamps,
    update self p fs v w = (Ok (Instance (Some p) fs (Some u, None) None), w') /\
    faults w' = [] /\
    find (has_pk p) (rows w') = Some (Row p fs u stamps).
Proof.
  intros Hf Hr. destruct w as [rs ck fl qs cc]. simpl in *. subst fl.
  pose proof (find_has_pk _ _ _ Hr) as [_ Hp]. subst p.
  pose proof (existsb_has_pk _ _ _ Hr) as He.
  destruct (key_eqb (key_of self (r_fields r)) (key_of self fs)) eqn:Hk.
  - (* the instance stays in its collection *)
    apply key_eqb_eq in Hk.
    assert (Hd : forall names, collection self = Some names ->
                               fields_differ names (r_fields r) fs = false).
    { intros names Hc. rewrite (fields_differ_key self) by assumption.
      now rewrite Hk, key_eqb_refl. }
    unfold update, save_update, pre_save, db_write, update_on_save, set_position. run.
    fold (has_pk (r_pk r)). rewrite Hr. run.
    destruct v as [x|]; run.
    + destruct (collection self) as [names|] eqn:Hc; run.
      * fold (has_pk (r_pk r)). rewrite Hr. run. rewrite (Hd names eq_refl). run.
        rewrite He. run.
        match goal with |- context [if ?b then _ else _] => destruct b end; run;
          do 3 eexists; (split; [reflexivity|]); (split; [reflexivity|]); cbn [rows];
          (apply find_shift_excluded; [apply find_write_row; exact Hr|apply excluded_own]).
      * rewrite He. run.
        match goal with |- context [if ?b then _ else _] => destruct b end; run;
          do 3 eexists; (split; [reflexivity|]); (split; [reflexivity|]); cbn [rows];
          (apply find_shift_excluded; [apply find_write_row; exact Hr|apply excluded_own]).
    + destruct (collection self) as [names|] eqn:Hc; run.
      * fold (has_pk (r_pk r)). rewrite Hr. run. rewrite (Hd names eq_refl). run.
        rewrite He. run.
        do 3 eexists; (split; [reflexivity|]); (split; [reflexivity|]); cbn [rows].
        apply find_write_row; exact Hr.
      * rewrite He. run.
        do 3 eexists; (split; [reflexivity|]); (split; [reflexivity|]); cbn [rows].
        apply find_write_row; exact Hr.
  - (* the instance changes collection *)
    apply key_eqb_false in Hk.
    destruct (collection self) as [names|] eqn:Hc.
    2:{ exfalso. apply Hk. now rewrite !key_of_no_collection. }
    assert (Hd : fields_differ names (r_fields r) fs = true).
    { rewrite (fields_differ_key self) by assumption.
      rewrite key_eqb_neq; [reflexivity|assumption]. }
    unfold update, save_update, pre_save, remove_from_collection, db_write,
      update_on_save, set_position. run.
    fold (has_pk (r_pk r)). rewrite Hr. run. rewrite Hc. run.
    destruct v as [x|]; run;
      fold (has_pk (r_pk r)); rewrite Hr; run; rewrite Hd; run;
      rewrite existsb_has_pk_shift, He; run;
      do 3 eexists; (split; [reflexivity|]); (split; [reflexivity|]); cbn [rows];
      (apply find_shift_excluded; [|apply excluded_own]);
      (eapply find_write_row; rewrite find_shift, Hr; reflexivity).
Qed.

Lemma find_app_absent p (l : list row) x :
  (forall r, In r l -> r_pk r <> p) -> r_pk x = p ->
  find (has_pk p) (l ++ [x]) = Some x.
Proof.
  intros Hl Hx. induction l as [|a l IH]; simpl.
  - now rewrite (proj2 (has_pk_true p x) Hx).
  - destruct (has_pk p a) eqn:E.
    + apply has_pk_true in E. exfalso. apply (Hl a); auto. now left.
    + apply IH. intros r Hr. apply Hl. now right.
Qed.

(** The instance a creation returns and the row it leaves. *)
Lemma create_result self fs v w :
  faults w = [] ->
  exists w' u stamps,
    create self fs v w
    = (Ok (Instance (Some (fresh_pk (rows w))) fs (Some u, None) None), w') /\
    faults w' = [] /\
    find (has_pk (fresh_pk (rows w))) (rows w') = Some (Row (fresh_pk (rows w)) fs u stamps).
Proof.
  intros Hf. destruct w as [rs ck fl qs cc]. simpl in *. subst fl.
  unfold create, save_insert, pre_save, db_insert, update_on_save, init_position. run.
  match goal with |- context [if ?b then _ else _] => destruct b end; run.
  - do 3 eexists. split; [reflexivity|]. split; [reflexivity|]. cbn [rows].
    apply find_app_absent; [|reflexivity].
    intros r Hr. apply fresh_pk_above in Hr. lia.
  - do 3 eexists. split; [reflexivity|]. split; [reflexivity|]. cbn [rows].
    rewrite shift_app. unfold shift at 2. cbn [map]. rewrite excluded_own.
    apply find_app_absent; [|reflexivity].
    intros r Hr. unfold shift in Hr. apply in_map_iff in Hr.
    destruct Hr as [a [<- Ha]]. apply fresh_pk_above in Ha.
    match goal with |- context [if ?b then _ else _] => destruct b end;
      unfold apply_updates; cbn [r_pk]; lia.
Qed.

(** X9: after a creation or an update that went through, the cache of
    the instance holds the position of its stored row and nothing
    pending, so the accessor returns the stored position. *)
Theorem saved_instance_shows_stored_position self o w i' w' :
  faults w = [] ->
  (forall p, o <> Delete p) ->
  perform self o w = (Ok i', w') ->
  exists p u,
    pk i' = Some p /\ cache i' = (Some u, None) /\ get_position i' = Some u /\
    option_map r_position (find (has_pk p) (rows w')) = Some u.
Proof.
  intros Hf Ho H. destruct o as [fs v|p fs v|p]; cbn [perform] in H.
  - destruct (create_result self fs v w Hf) as (w1 & u & stamps & Hc & _ & Hfind).
    rewrite Hc in H. inversion H; subst.
    exists (fresh_pk (rows w)), u. rewrite Hfind. repeat split.
  - destruct (find (has_pk p) (rows w)) as [r|] eqn:Hr.
    + destruct (update_result self p fs v w r Hf Hr) as (w1 & u & stamps & Hu & _ & Hfind).
      rewrite Hu in H. inversion H; subst.
      exists p, u. rewrite Hfind. repeat split.
    + destruct (update_missing self p fs v w Hf Hr) as (w1 & Hu & _).
      rewrite Hu in H. discriminate.
  - exfalso. now apply (Ho p).
Qed.

Lemma saved_instance_shows_stored_position_witness :
  exists p u,
    pk (Instance (Some 2) [Some 7] (Some 0, None) None) = Some p /\
    cache (Instance (Some 2) [Some 7] (Some 0, None) None) = (Some u, None) /\
    get_position (Instance (Some 2) [Some 7] (Some 0, None) None) = Some u /\
    option_map r_position
      (find (has_pk p)
         (rows (snd (perform plain (Update 2 [Some 7] (Some (Some (-7))))
                       (empty_world five))))) = Some u.
Proof.
  apply (saved_instance_shows_stored_position plain
           (Update 2 [Some 7] (Some (Some (-7)))) (empty_world five) _ _ eq_refl).
  - discriminate.
  - reflexivity.
Defined.

Lemma five_consistent : consistent plain (empty_world five).
Proof.
  split; [reflexivity|]. split; [|split].
  - unfold unique_keys. cbn. repeat constructor; cbn; intuition discriminate.
  - unfold truthy_keys. cbn. intuition discriminate.
  - intros k. unfold dense, members, in_collection. cbn [empty_world rows five filter r_fields].
    change (key_of plain [Some 7]) with [Some 7].
    change (key_of plain [Some 8]) with [Some 8].
    destruct (key_eqb [Some 7] k) eqn:E7; destruct (key_eqb [Some 8] k) eqn:E8.
    + apply key_eqb_eq in E7, E8. congruence.
    + apply Permutation_refl.
    + apply Permutation_refl.
    + apply Permutation_refl.
Qed.

(** X10: saving again the instance a creation or an update has returned
    changes no key, no field and no position of the table. *)
Theorem saving_again_changes_nothing self o w i' w' :
  consistent self w ->
  (forall p, o <> Delete p) ->
  perform self o w = (Ok i', w') ->
  exists w'',
    save_update self i' w' = (Ok i', w'') /\
    Forall2 same_place (rows w') (rows w'').
Proof.
  intros Hw Ho H.
  destruct (perform_preserves self o w Hw) as (res & w1 & H1 & (Hf' & Hu' & _)).
  rewrite H in H1. inversion H1; subst res w1. clear H1.
  destruct Hw as (Hf & _).
  assert (Hres : exists p fs u stamps,
             i' = Instance (Some p) fs (Some u, None) None /\
             find (has_pk p) (rows w') = Some (Row p fs u stamps)).
  { destruct o as [fs v|p fs v|p]; cbn [perform] in H.
    - destruct (create_result self fs v w Hf) as (w1 & u & stamps & Hc & _ & Hfind).
      rewrite Hc in H. inversion H; subst.
      do 4 eexists. split; [reflexivity|eassumption].
    - destruct (find (has_pk p) (rows w)) as [r|] eqn:Hr.
      + destruct (update_result self p fs v w r Hf Hr) as (w1 & u & stamps & Hc & _ & Hfind).
        rewrite Hc in H. inversion H; subst.
      do 4 eexists. split; [reflexivity|eassumption].
      + destruct (update_missing self p fs v w Hf Hr) as (w1 & Hc & _).
        rewrite Hc in H. discriminate.
    - exfalso. now apply (Ho p). }
  destruct Hres as (p & fs & u & stamps & -> & Hfind).
  destruct (save_update_untouched self (Instance (Some p) fs (Some u, None) None) p u w'
              (Row p fs u stamps) Hf' eq_refl eq_refl Hfind eq_refl)
    as (w'' & t & Hs & _ & Hrows).
  exists w''. split; [exact Hs|]. rewrite Hrows. unfold write_row.
  apply Forall2_map_same. intros a Ha.
  destruct (has_pk p a) eqn:E; [|repeat split].
  apply has_pk_true in E. apply find_has_pk in Hfind. destruct Hfind as [Hin _].
  assert (a = Row p fs u stamps) by (apply (unique_keys_inj (rows w')); auto).
  subst a. repeat split.
Qed.

Lemma saving_again_changes_nothing_witness :
  exists w'',
    save_update plain (Instance (Some 2) [Some 8] (Some 0, None) None)
      (snd (perform plain (Update 2 [Some 8] (Some (Some 0))) (empty_world five)))
    = (Ok (Instance (Some 2) [Some 8] (Some 0, None) None), w'') /\
    Forall2 same_place
      (rows (snd (perform plain (Update 2 [Some 8] (Some (Some 0))) (empty_world five))))
      (rows w'').
Proof.
  apply (saving_again_changes_nothing plain (Update 2 [Some 8] (Some (Some 0)))
           (empty_world five) _ _ five_consistent).
  - discriminate.
  - reflexivity.
Defined.

(** ** Deleting *)

(** X11: when the database does not fail and the instance has a current
    position, [get_next_sibling] returns a row of the table that is in
    the collection of the instance and above it, or [None] when no row of
    the collection is above it; the table is left as it is. *)
Theorem get_next_sibling_finds self i c w :
  faults w = [] -> fst (cache i) = Some c ->
  exists found w',
    get_next_sibling self i w = (Ok found, w') /\ rows w' = rows w /\
    match found with
    | Some s => In s (rows w) /\ key_of self (r_fields s) = key_of self (fields i) /\
                c < r_position s
    | None => forall r, In r (rows w) ->
                        key_of self (r_fields r) = key_of self (fields i) ->
                        r_position r <= c
    end.
Proof.
  intros Hf Hc. destruct w as [rs ck fl qs cc]. simpl in *. subst fl.
  unfold get_next_sibling. rewrite Hc. run.
  destruct (filter _ rs) as [|s l] eqn:E; run.
  - exists None. eexists. split; [reflexivity|]. split; [reflexivity|].
    intros r Hr Hk. destruct (Z.leb_spec (r_position r) c) as [|Hgt]; [assumption|].
    exfalso. assert (Hin : In r []).
    { rewrite <- E. apply filter_In. split; [assumption|]. unfold q_filter.
      rewrite get_collection_key. apply andb_true_iff. split.
      - now apply in_collection_eq.
      - zbool; lia. }
    destruct Hin.
  - exists (Some s). eexists. split; [reflexivity|]. split; [reflexivity|].
    assert (Hin : In s (s :: l)) by (now left). rewrite <- E in Hin.
    apply filter_In in Hin. destruct Hin as [Hin Hq]. unfold q_filter in Hq.
    rewrite get_collection_key in Hq. apply andb_true_iff in Hq. destruct Hq as [Hk Hp].
    apply in_collection_eq in Hk. repeat split; auto. zbool; lia.
Qed.

Lemma get_next_sibling_finds_witness :
  exists found w',
    get_next_sibling plain (instance_of_row (Row 3 [Some 7] 2 [])) (empty_world five)
    = (Ok found, w') /\ rows w' = five /\
    match found with
    | Some s => In s five /\ key_of plain (r_fields s) = key_of plain [Some 7] /\
                2 < r_position s
    | None => forall r, In r five -> key_of plain (r_fields r) = key_of plain [Some 7] ->
                        r_position r <= 2
    end.
Proof.
  exact (get_next_sibling_finds plain (instance_of_row (Row 3 [Some 7] 2 [])) 2
           (empty_world five) eq_refl eq_refl).
Defined.

(** X12: whatever the database does and whatever the instance holds,
    [prepare_delete] returns without raising, leaves the table as it is
    and changes nothing in the instance but the remembered sibling. *)
Theorem prepare_delete_never_raises self i w :
  exists i' w',
    prepare_delete self i w = (Ok i', w') /\
    rows w' = rows w /\
    pk i' = pk i /\ fields i' = fields i /\ cache i' = cache i.
Proof.
  destruct (prepare_delete self i w) as [res w'] eqn:H.
  destruct w as [rs ck fl qs cc].
  unfold prepare_delete, get_next_sibling in H. run_in H.
  repeat (split_match H; run_in H).
  all: run_ended.
  all: do 2 eexists; repeat split; reflexivity.
Qed.

(** X13: whatever the database does, [update_on_delete] forgets the
    remembered sibling when it returns, adds no row, removes none and
    changes no key and no field; the only rows it moves, by one position,
    are those in the collection of the remembered sibling above the
    current position of the deleted instance. *)
Theorem update_on_delete_scope self i w :
  let res := fst (update_on_delete self i w) in
  let w' := snd (update_on_delete self i w) in
  (forall i', res = Ok i' -> i' = set_next_sibling_pk i None) /\
  only_shifts (fun r => exists c s,
                 fst (cache i) = Some c /\ next_sibling_pk i = Some (r_pk s) /\
                 In s (rows w) /\
                 key_of self (r_fields r) = key_of self (r_fields s) /\
                 c < r_position r)
              (rows w) (rows w').
Proof.
  destruct (update_on_delete self i w) as [res w'] eqn:H. cbn [fst snd].
  destruct w as [rs ck fl qs cc].
  unfold update_on_delete in H. run_in H.
  repeat (split_match H; run_in H).
  all: run_ended.
  all: cbn [rows stamp_world]; split; [intros ? E; inversion E; reflexivity|].
  all: try apply only_shifts_same.
  all: apply only_shifts_shift; [|auto].
  all: intros r' Hr'; apply q_filter_true in Hr'; destruct Hr' as [Hk Hp];
    rewrite get_collection_key in Hk; apply in_collection_eq in Hk;
    cbn [instance_of_row fields] in Hk;
    match goal with
    | Hfind : find _ _ = Some ?s, Hc : fst (cache _) = Some ?c |- _ =>
        apply find_some in Hfind; destruct Hfind as [Hin Hpk];
        apply Z.eqb_eq in Hpk; exists c, s
    end;
    repeat split; auto; try congruence; zbool; lia.
Qed.


Lemma gap_closure_skipped_witness :
  exists w',
    update_on_delete plain (Instance (Some 5) [Some 7] (Some 4, None) None) (empty_world five)
    = (Ok (set_next_sibling_pk (Instance (Some 5) [Some 7] (Some 4, None) None) None), w') /\
    rows w' = five.
Proof.
  apply (gap_closure_skipped plain (Instance (Some 5) [Some 7] (Some 4, None) None)
           (empty_world five) eq_refl).
  left. reflexivity.
Defined.

Lemma without_fresh p (l : list row) x :
  (forall r, In r l -> r_pk r <> p) -> r_pk x = p -> without p (l ++ [x]) = l.
Proof.
  intros Hl Hx. unfold without. rewrite filter_app. cbn [filter].
  rewrite (proj2 (has_pk_true p x) Hx). cbn [negb]. rewrite app_nil_r.
  now apply without_absent.
Qed.

(** X16: from a consistent state, creating a record and deleting it
    again gives back every row its key, fields and position, wherever in
    its collection the record was inserted. *)
Theorem create_then_delete self fs v w i' w1 :
  consistent self w ->
  create self fs v w = (Ok i', w1) ->
  exists p i'' w2,
    pk i' = Some p /\ destroy self p w1 = (Ok i'', w2) /\
    Forall2 same_place (rows w) (rows w2).
Proof.
  intros (Hf & Hu & Ht & Ho) H.
  destruct (create_ordered self fs v w Hf (Ho _)) as (i1 & w' & t & t' & Hc & _ & _ & Hrows).
  rewrite H in Hc. inversion Hc; subst i1 w'. clear Hc.
  destruct (create_preserves self fs v w Hf Hu Ht Ho) as (i1 & w' & Hc & Hf1 & Hu1 & Ht1 & _).
  rewrite H in Hc. inversion Hc; subst i1 w'. clear Hc.
  destruct (create_result self fs v w Hf) as (w' & u' & stamps & Hc & _).
  rewrite H in Hc. inversion Hc; subst i' w'. clear Hc.
  set (p := fresh_pk (rows w)) in *.
  set (k := key_of self fs) in *.
  set (u := resolve_position (Z.of_nat (length (members self k (rows w)))) (requested self v)) in *.
  set (q := fun r => in_collection self k r && (r_position r >=? u)) in *.
  assert (Hbelow : forall r, In r (shift q 1 t (rows w)) -> r_pk r <> p).
  { intros r Hr. unfold shift in Hr. apply in_map_iff in Hr.
    destruct Hr as [a [<- Ha]]. apply fresh_pk_above in Ha. fold p in Ha.
    destruct (q a); unfold apply_updates; cbn [r_pk]; lia. }
  assert (Hfind : find (has_pk p) (rows w1) = Some (Row p fs u t')).
  { rewrite Hrows. now apply find_app_absent. }
  destruct (destroy_closes self p w1 _ Hf1 Hu1 Ht1 Hfind) as (i'' & w2 & t2 & Hd & _ & Hrows2).
  exists p, i'', w2. split; [reflexivity|]. split; [exact Hd|].
  rewrite Hrows2, Hrows, without_fresh by auto.
  cbn [r_fields r_position]. fold k. unfold shift. rewrite map_map.
  apply Forall2_map_same. intros a _. unfold q.
  destruct (in_collection self k a) eqn:Hk; cbn [andb].
  - destruct (Z.geb_spec (r_position a) u).
    + unfold in_collection, apply_updates in *. cbn [r_fields r_position].
      rewrite Hk. cbn [andb].
      destruct (Z.gtb_spec (r_position a + 1) u); [|lia].
      repeat split. cbn. lia.
    + rewrite Hk. cbn [andb].
      destruct (Z.gtb_spec (r_position a) u); [lia|]. repeat split.
  - rewrite Hk. repeat split.
Qed.

Lemma create_then_delete_witness :
  exists p i'' w2,
    pk (Instance (Some 7) [Some 7] (Some 1, None) None) = Some p /\
    destroy plain p (snd (create plain [Some 7] (Some 1) (empty_world five))) = (Ok i'', w2) /\
    Forall2 same_place five (rows w2).
Proof.
  exact (create_then_delete plain [Some 7] (Some 1) (empty_world five) _ _
           five_consistent eq_refl).
Defined.

(** ** Operations from a consistent state *)

(** X17: from a consistent state an operation ends in a consistent
    state; it raises only [ObjectDoesNotExist], only when it addresses a
    key that no row has, and leaves the table as it is then; it goes
    through when it creates a record or addresses a key of the table. *)
Theorem perform_outcome self o w :
  consistent self w ->
  exists res w',
    perform self o w = (res, w') /\ consistent self w' /\
    match res with
    | Ok _ => target o = None \/ has_key (target o) (rows w) <> None
    | Raise e =>
        e = ObjectDoesNotExist /\ rows w' = rows w /\
        target o <> None /\ has_key (target o) (rows w) = None
    end.
Proof.
  intros Hw. destruct (perform_preserves self o w Hw) as (res & w' & H & Hw').
  exists res, w'. split; [exact H|]. split; [exact Hw'|].
  destruct Hw as (Hf & Hu & Ht & Ho).
  destruct o as [fs v|p fs v|p]; cbn [perform target has_key] in *.
  - destruct (create_result self fs v w Hf) as (w1 & u & stamps & Hc & _).
    rewrite Hc in H. inversion H; subst. now left.
  - destruct (find (has_pk p) (rows w)) as [r|] eqn:Hr.
    + destruct (update_result self p fs v w r Hf Hr) as (w1 & u & stamps & Hc & _).
      rewrite Hc in H. inversion H; subst. right. discriminate.
    + destruct (update_missing self p fs v w Hf Hr) as (w1 & Hc & _ & Hrows).
      rewrite Hc in H. inversion H; subst. repeat split; auto. discriminate.
  - destruct (find (has_pk p) (rows w)) as [r|] eqn:Hr.
    + destruct (destroy_effect self p w r Hf Hr) as (i1 & w1 & t & Hc & _).
      rewrite Hc in H. inversion H; subst. right. discriminate.
    + destruct (destroy_missing self p w Hf Hr) as (w1 & Hc & _ & Hrows).
      rewrite Hc in H. inversion H; subst. repeat split; auto. discriminate.
Qed.

Lemma perform_outcome_witness :
  exists res w',
    perform plain (Delete 9) (empty_world five) = (res, w') /\ consistent plain w' /\
    match res with
    | Ok _ => target (Delete 9) = None \/ has_key (target (Delete 9)) five <> None
    | Raise e =>
        e = ObjectDoesNotExist /\ rows w' = five /\
        target (Delete 9) <> None /\ has_key (target (Delete 9)) five = None
    end.
Proof.
  exact (perform_outcome plain (Delete 9) (empty_world five) five_consistent).
Defined.

(** X18: in every table reached from the empty one by a sequence of
    the operations of [perform], each carried out in full on an instance
    built or fetched for it ([create]: a new instance, whose key the
    database assigns; [update]: the record is fetched by its key,
    changed and saved; [destroy]: the record is fetched by its key and
    deleted), the keys are unique, none is 0, and the positions of
    every collection are 0 to N-1, each once.  Instances kept from
    before an earlier operation are not covered. *)
Theorem from_the_empty_table self os k :
  let rs := rows (snd (perform_all self os (empty_world []))) in
  unique_keys rs /\ (forall r, In r rs -> 0 < r_pk r \/ r_pk r < 0) /\
  contiguous (positions (members self k rs)).
Proof.
  cbn zeta.
  destruct (perform_all_preserves self os (empty_world []) (nothing_is_consistent self))
    as (_ & Hu & Ht & Ho).
  split; [exact Hu|]. split.
  - intros r Hr. destruct (Z.eq_dec (r_pk r) 0) as [E|E]; [|lia].
    exfalso. apply Ht. rewrite <- E. now apply in_map.
  - apply dense_contiguous. apply Ho.
Qed.

(** ** The queries a method sends, and the clock *)

Ltac traffic :=
  cbn [queries stamp_world];
  match goal with
  | |- exists sent, ?l = sent ++ ?qs /\ _ => let p := sent_since l qs in exists p
  end;
  (split; [reflexivity|]); cbn; tauto.

(** X19: whatever the database does, [pre_save] sends at most a fetch of
    the stored row, then the bulk update that takes the instance out of
    its old collection, then a count, the update never without the fetch;
    [update_on_save] sends at most one bulk update; [prepare_delete] at
    most one read of the first row; [update_on_delete] at most a fetch
    and then a bulk update.  None of them inserts, writes or deletes a
    row. *)
Theorem query_traffic self i add created :
  sends (pre_save self i add)
        [[]; [QGet]; [QCount]; [QGet; QCount]; [QGet; QUpdate]; [QGet; QUpdate; QCount]] /\
  sends (update_on_save self i created) [[]; [QUpdate]] /\
  sends (prepare_delete self i) [[]; [QFirst]] /\
  sends (update_on_delete self i) [[]; [QGet]; [QGet; QUpdate]].
Proof.
  split; [|split; [|split]]; intros w.
  - destruct (pre_save self i add w) as [res w'] eqn:H. cbn [snd].
    destruct w as [rs ck fl qs cc].
    unfold pre_save, remove_from_collection in H. run_in H.
    repeat (split_match H; run_in H).
    all: run_ended.
    all: traffic.
  - destruct (update_on_save self i created w) as [res w'] eqn:H. cbn [snd].
    destruct w as [rs ck fl qs cc].
    unfold update_on_save in H. run_in H.
    repeat (split_match H; run_in H).
    all: run_ended.
    all: traffic.
  - destruct (prepare_delete self i w) as [res w'] eqn:H. cbn [snd].
    destruct w as [rs ck fl qs cc].
    unfold prepare_delete, get_next_sibling in H. run_in H.
    repeat (split_match H; run_in H).
    all: run_ended.
    all: traffic.
  - destruct (update_on_delete self i w) as [res w'] eqn:H. cbn [snd].
    destruct w as [rs ck fl qs cc].
    unfold update_on_delete in H. run_in H.
    repeat (split_match H; run_in H).
    all: run_ended.
    all: traffic.
Qed.

Ltac ticking :=
  cbn [clock stamp_world];
  first [ left; reflexivity
        | right; split; [congruence|reflexivity]
        | destruct (auto_now_fields _);
          [left; reflexivity | right; split; [discriminate|reflexivity]] ].

(** X20: each of the four handlers reads the clock at most once, and
    not at all when the model has no [auto_now] field. *)
Theorem clock_reads self i add created :
  reads_clock_once self (pre_save self i add) /\
  reads_clock_once self (update_on_save self i created) /\
  reads_clock_once self (prepare_delete self i) /\
  reads_clock_once self (update_on_delete self i).
Proof.
  split; [|split; [|split]]; intros w.
  - destruct (pre_save self i add w) as [res w'] eqn:H. cbn [snd].
    destruct w as [rs ck fl qs cc].
    unfold pre_save, remove_from_collection in H. run_in H.
    repeat (split_match H; run_in H).
    all: run_ended.
    all: ticking.
  - destruct (update_on_save self i created w) as [res w'] eqn:H. cbn [snd].
    destruct w as [rs ck fl qs cc].
    unfold update_on_save in H. run_in H.
    repeat (split_match H; run_in H).
    all: run_ended.
    all: ticking.
  - destruct (prepare_delete self i w) as [res w'] eqn:H. cbn [snd].
    destruct w as [rs ck fl qs cc].
    unfold prepare_delete, get_next_sibling in H. run_in H.
    repeat (split_match H; run_in H).
    all: run_ended.
    all: ticking.
  - destruct (update_on_delete self i w) as [res w'] eqn:H. cbn [snd].
    destruct w as [rs ck fl qs cc].
    unfold update_on_delete in H. run_in H.
    repeat (split_match H; run_in H).
    all: run_ended.
    all: ticking.
Qed.
